(** * M2-ISA-R: the architecture model builder

    A shallow embedding of [ArchitectureModelBuilder]
    (src/architecture_model_builder.py), the lark [Transformer] that
    turns a parsed architecture description into the model of one core.

    The builder is a Python object with eleven name-keyed dicts and a few
    counters; every reduction handler reads and mutates them, and the
    entities it builds are Python objects shared by reference between the
    dicts, the parse tree and one another.  The embedding therefore has

    - an object store ([Heap]): one growing list per entity class, an
      object's identity being its index ([loc]);
    - the builder's dicts as [gmap]s from names to locations;
    - a state-and-exception monad [M] in which the handlers are written;
    - a type [Call] of reductions and [run], which dispatches a call to
      its handler the way lark dispatches on the rule's name.

    The module [model_classes] (the entity classes) is not part of the
    sources under study.  An entity is modelled as the record of the
    arguments its constructor receives in the builder; what the classes
    compute from them is either a parameter of the development (the
    [(code, mask)] pair of an instruction), with a stand-in modelled
    from the specification where concrete input has to be run. *)

From stdpp Require Import base option list gmap strings fin_maps relations.
From Stdlib Require Import ZArith Lia.

Local Open Scope string_scope.
Local Open Scope list_scope.

(** ** Scalars and ranges *)

(** Identity of an object inside the list of objects of its class. *)
Abbreviation loc := nat.

(** What the parse tree supplies where the grammar allows an integer or
    the name of a constant. *)
Inductive IntOrName :=
| Lit (z : Z)
| Name (n : string).

(** What an entity stores in such a position: an integer, a name left
    unresolved (the arguments of [range_spec] and an alias index are not
    passed through [get_constant_or_val]), or a reference to a
    [Constant] object (what [get_constant_or_val] returns for a name). *)
Inductive Scalar :=
| SInt (z : Z)
| SName (n : string)
| SConst (c : loc).

Definition raw (v : IntOrName) : Scalar :=
  match v with
  | Lit z => SInt z
  | Name n => SName n
  end.

(** [model_classes.RangeSpec]: its positional arguments, in
    order.  The builder calls it with two arguments ([RangeSpec(0, 0)],
    [RangeSpec(index, index)]), with three
    ([RangeSpec(length_base, 0, length_power)]) and with whatever
    [range_spec] receives. *)
Record RangeSpec := mkRangeSpec { rs_args : list Scalar }.

(** The [index] argument of [register_alias]: a [RangeSpec] or a single
    index ([isinstance(index, model_classes.RangeSpec)]). *)
Inductive Index :=
| IdxRange (r : RangeSpec)
| IdxSingle (i : IntOrName).

(** Members of the attribute enumerations are identified by their
    (upper-cased) names; an attribute set is a Python [set] of them. *)
Abbreviation Attributes := (gset string).

(** [model_classes.DataType]: the builder names the members [U] and
    [NONE]; any other member is carried by name. *)
Inductive DataType :=
| DT_NONE
| DT_U
| DT_member (n : string).

(** Operation bodies are opaque payloads handed through unchanged; a
    payload is carried as its text. *)
Definition Operation := string.

(** ** Entities *)

Record Constant := mkConstant {
  c_name : string;
  c_value : option Z;
  c_attributes : Attributes }.

Record AddressSpace := mkAddressSpace {
  as_name : string;
  as_length_base : Scalar;
  as_length_power : Scalar;
  as_size : Scalar;
  as_attributes : Attributes }.

(** [Register(name, attributes, initval, size)].  The default value is
    the third constructor argument ([None] in the builder) and is later
    assigned through the attribute [_initval] by [register_default]; one
    field stands for it.  The same holds for [RegisterAlias]. *)
Record Register := mkRegister {
  r_name : string;
  r_attributes : Attributes;
  r_initval : option Scalar;
  r_size : Scalar }.

Record RegisterFile := mkRegisterFile {
  rf_name : string;
  rf_range : RangeSpec;
  rf_attributes : Attributes;
  rf_size : Scalar }.

(** A reference to a register object of one of the three register
    classes: the value of [self.__register_file.get(actual) or
    self.__registers.get(actual) or self.__register_alias.get(actual)]. *)
Inductive RegRef :=
| RFile (l : loc)
| RReg (l : loc)
| RAlias (l : loc).

Record RegisterAlias := mkRegisterAlias {
  ra_name : string;
  ra_actual : RegRef;
  ra_index : Index;
  ra_attributes : Attributes;
  ra_initval : option Scalar;
  ra_size : Scalar }.

(** [Memory(name, range, size, attributes)]; [children] is the list the
    builder appends to ([parent_mem.children.append(m)]), empty in a new
    object, and holds references. *)
Record Memory := mkMemory {
  m_name : string;
  m_range : RangeSpec;
  m_size : Scalar;
  m_attributes : Attributes;
  m_children : list loc }.

Record BitField := mkBitField {
  bf_name : string;
  bf_range : RangeSpec;
  bf_data_type : DataType }.

Record BitVal := mkBitVal {
  bv_length : Z;
  bv_value : Z }.

Inductive EncElem :=
| EField (b : BitField)
| EVal (v : BitVal).

(** [Instruction(name, attributes, encoding, disass, operation)]; the
    class derives [code] and [mask] from the encoding, and the builder
    later sets [ext_name]. *)
Record Instruction := mkInstruction {
  i_name : string;
  i_attributes : Attributes;
  i_encoding : list EncElem;
  i_disass : string;
  i_operation : Operation;
  i_code : Z;
  i_mask : Z;
  i_ext_name : option string }.

Record FnParam := mkFnParam {
  p_name : string;
  p_size : Scalar;
  p_data_type : DataType }.

Record Function := mkFunction {
  f_name : string;
  f_return_len : option Scalar;
  f_data_type : DataType;
  f_args : list FnParam;
  f_operation : Operation;
  f_ext_name : option string }.

(** The four dicts of an [InstructionSet] are [None] when the set
    declares nothing of the kind. *)
Record InstructionSet := mkInstructionSet {
  is_name : string;
  is_extension : option string;
  is_constants : option (gmap string loc);
  is_address_spaces : option (gmap string loc);
  is_registers : option (gmap string RegRef);
  is_instructions : option (gmap string loc) }.

(** [CoreDef(name, contributing_types, template, constants,
    address_spaces, register_files, registers, register_aliases,
    memories, memory_aliases, functions, instructions)]: the twelve
    arguments of the constructor call in [core_def], the dicts with the
    contents they have at that moment. *)
Record CoreDef := mkCoreDef {
  cd_name : string;
  cd_contributing_types : list string;
  cd_template : option string;
  cd_constants : gmap string loc;
  cd_address_spaces : gmap string loc;
  cd_register_files : gmap string loc;
  cd_registers : gmap string loc;
  cd_register_aliases : gmap string loc;
  cd_memories : gmap string loc;
  cd_memory_aliases : gmap string loc;
  cd_functions : gmap string loc;
  cd_instructions : gmap (Z * Z) loc }.

(** ** The object store *)

Record Heap := mkHeap {
  hConstant : list Constant;
  hAddressSpace : list AddressSpace;
  hRegister : list Register;
  hRegisterFile : list RegisterFile;
  hRegisterAlias : list RegisterAlias;
  hMemory : list Memory;
  hInstruction : list Instruction;
  hFunction : list Function }.

Definition empty_heap : Heap := mkHeap [] [] [] [] [] [] [] [].

Definition upd_hConstant (f : list Constant → list Constant) (h : Heap) : Heap :=
  mkHeap (f (hConstant h)) (hAddressSpace h) (hRegister h) (hRegisterFile h)
         (hRegisterAlias h) (hMemory h) (hInstruction h) (hFunction h).
Definition upd_hAddressSpace (f : list AddressSpace → list AddressSpace) (h : Heap) : Heap :=
  mkHeap (hConstant h) (f (hAddressSpace h)) (hRegister h) (hRegisterFile h)
         (hRegisterAlias h) (hMemory h) (hInstruction h) (hFunction h).
Definition upd_hRegister (f : list Register → list Register) (h : Heap) : Heap :=
  mkHeap (hConstant h) (hAddressSpace h) (f (hRegister h)) (hRegisterFile h)
         (hRegisterAlias h) (hMemory h) (hInstruction h) (hFunction h).
Definition upd_hRegisterFile (f : list RegisterFile → list RegisterFile) (h : Heap) : Heap :=
  mkHeap (hConstant h) (hAddressSpace h) (hRegister h) (f (hRegisterFile h))
         (hRegisterAlias h) (hMemory h) (hInstruction h) (hFunction h).
Definition upd_hRegisterAlias (f : list RegisterAlias → list RegisterAlias) (h : Heap) : Heap :=
  mkHeap (hConstant h) (hAddressSpace h) (hRegister h) (hRegisterFile h)
         (f (hRegisterAlias h)) (hMemory h) (hInstruction h) (hFunction h).
Definition upd_hMemory (f : list Memory → list Memory) (h : Heap) : Heap :=
  mkHeap (hConstant h) (hAddressSpace h) (hRegister h) (hRegisterFile h)
         (hRegisterAlias h) (f (hMemory h)) (hInstruction h) (hFunction h).
Definition upd_hInstruction (f : list Instruction → list Instruction) (h : Heap) : Heap :=
  mkHeap (hConstant h) (hAddressSpace h) (hRegister h) (hRegisterFile h)
         (hRegisterAlias h) (hMemory h) (f (hInstruction h)) (hFunction h).
Definition upd_hFunction (f : list Function → list Function) (h : Heap) : Heap :=
  mkHeap (hConstant h) (hAddressSpace h) (hRegister h) (hRegisterFile h)
         (hRegisterAlias h) (hMemory h) (hInstruction h) (f (hFunction h)).

Arguments upd_hConstant _ _ /.
Arguments upd_hAddressSpace _ _ /.
Arguments upd_hRegister _ _ /.
Arguments upd_hRegisterFile _ _ /.
Arguments upd_hRegisterAlias _ _ /.
Arguments upd_hMemory _ _ /.
Arguments upd_hInstruction _ _ /.
Arguments upd_hFunction _ _ /.

(** ** The builder's state

    The fields carry the names of the Python attributes ([__constants]
    for [self.__constants], ...).  [__read_types] is a dict whose values
    are all [None] and of which only the keys, in insertion order, are
    read: it is the list of its keys.  [__fields] is the two-level
    [defaultdict].  [__scalars] is initialised and never touched again;
    it is left out.  [stdout] collects what [print] writes. *)
Record State := mkState {
  heap : Heap;
  __constants : gmap string loc;
  __address_spaces : gmap string loc;
  __registers : gmap string loc;
  __register_file : gmap string loc;
  __register_alias : gmap string loc;
  __instructions : gmap (Z * Z) loc;
  __functions : gmap string loc;
  __instruction_sets : gmap string InstructionSet;
  __read_types : list string;
  __memories : gmap string loc;
  __memory_aliases : gmap string loc;
  __fields : gmap nat (gmap string (list BitField));
  __current_instr_idx : nat;
  __current_fn_idx : nat;
  stdout : list string }.

(** [__init__] *)
Definition init : State :=
  mkState empty_heap ∅ ∅ ∅ ∅ ∅ ∅ ∅ ∅ [] ∅ ∅ ∅ 0 0 [].

Definition upd_heap (f : Heap → Heap) (s : State) : State :=
  mkState (f (heap s)) (__constants s) (__address_spaces s) (__registers s)
    (__register_file s) (__register_alias s) (__instructions s) (__functions s)
    (__instruction_sets s) (__read_types s) (__memories s) (__memory_aliases s)
    (__fields s) (__current_instr_idx s) (__current_fn_idx s) (stdout s).
Definition upd_constants (f : gmap string loc → gmap string loc) (s : State) : State :=
  mkState (heap s) (f (__constants s)) (__address_spaces s) (__registers s)
    (__register_file s) (__register_alias s) (__instructions s) (__functions s)
    (__instruction_sets s) (__read_types s) (__memories s) (__memory_aliases s)
    (__fields s) (__current_instr_idx s) (__current_fn_idx s) (stdout s).
Definition upd_address_spaces (f : gmap string loc → gmap string loc) (s : State) : State :=
  mkState (heap s) (__constants s) (f (__address_spaces s)) (__registers s)
    (__register_file s) (__register_alias s) (__instructions s) (__functions s)
    (__instruction_sets s) (__read_types s) (__memories s) (__memory_aliases s)
    (__fields s) (__current_instr_idx s) (__current_fn_idx s) (stdout s).
Definition upd_registers (f : gmap string loc → gmap string loc) (s : State) : State :=
  mkState (heap s) (__constants s) (__address_spaces s) (f (__registers s))
    (__register_file s) (__register_alias s) (__instructions s) (__functions s)
    (__instruction_sets s) (__read_types s) (__memories s) (__memory_aliases s)
    (__fields s) (__current_instr_idx s) (__current_fn_idx s) (stdout s).
Definition upd_register_file (f : gmap string loc → gmap string loc) (s : State) : State :=
  mkState (heap s) (__constants s) (__address_spaces s) (__registers s)
    (f (__register_file s)) (__register_alias s) (__instructions s) (__functions s)
    (__instruction_sets s) (__read_types s) (__memories s) (__memory_aliases s)
    (__fields s) (__current_instr_idx s) (__current_fn_idx s) (stdout s).
Definition upd_register_alias (f : gmap string loc → gmap string loc) (s : State) : State :=
  mkState (heap s) (__constants s) (__address_spaces s) (__registers s)
    (__register_file s) (f (__register_alias s)) (__instructions s) (__functions s)
    (__instruction_sets s) (__read_types s) (__memories s) (__memory_aliases s)
    (__fields s) (__current_instr_idx s) (__current_fn_idx s) (stdout s).
Definition upd_instructions (f : gmap (Z * Z) loc → gmap (Z * Z) loc) (s : State) : State :=
  mkState (heap s) (__constants s) (__address_spaces s) (__registers s)
    (__register_file s) (__register_alias s) (f (__instructions s)) (__functions s)
    (__instruction_sets s) (__read_types s) (__memories s) (__memory_aliases s)
    (__fields s) (__current_instr_idx s) (__current_fn_idx s) (stdout s).
Definition upd_functions (f : gmap string loc → gmap string loc) (s : State) : State :=
  mkState (heap s) (__constants s) (__address_spaces s) (__registers s)
    (__register_file s) (__register_alias s) (__instructions s) (f (__functions s))
    (__instruction_sets s) (__read_types s) (__memories s) (__memory_aliases s)
    (__fields s) (__current_instr_idx s) (__current_fn_idx s) (stdout s).
Definition upd_instruction_sets
    (f : gmap string InstructionSet → gmap string InstructionSet) (s : State) : State :=
  mkState (heap s) (__constants s) (__address_spaces s) (__registers s)
    (__register_file s) (__register_alias s) (__instructions s) (__functions s)
    (f (__instruction_sets s)) (__read_types s) (__memories s) (__memory_aliases s)
    (__fields s) (__current_instr_idx s) (__current_fn_idx s) (stdout s).
Definition upd_read_types (f : list string → list string) (s : State) : State :=
  mkState (heap s) (__constants s) (__address_spaces s) (__registers s)
    (__register_file s) (__register_alias s) (__instructions s) (__functions s)
    (__instruction_sets s) (f (__read_types s)) (__memories s) (__memory_aliases s)
    (__fields s) (__current_instr_idx s) (__current_fn_idx s) (stdout s).
Definition upd_memories (f : gmap string loc → gmap string loc) (s : State) : State :=
  mkState (heap s) (__constants s) (__address_spaces s) (__registers s)
    (__register_file s) (__register_alias s) (__instructions s) (__functions s)
    (__instruction_sets s) (__read_types s) (f (__memories s)) (__memory_aliases s)
    (__fields s) (__current_instr_idx s) (__current_fn_idx s) (stdout s).
Definition upd_memory_aliases (f : gmap string loc → gmap string loc) (s : State) : State :=
  mkState (heap s) (__constants s) (__address_spaces s) (__registers s)
    (__register_file s) (__register_alias s) (__instructions s) (__functions s)
    (__instruction_sets s) (__read_types s) (__memories s) (f (__memory_aliases s))
    (__fields s) (__current_instr_idx s) (__current_fn_idx s) (stdout s).
Definition upd_fields
    (f : gmap nat (gmap string (list BitField)) → gmap nat (gmap string (list BitField)))
    (s : State) : State :=
  mkState (heap s) (__constants s) (__address_spaces s) (__registers s)
    (__register_file s) (__register_alias s) (__instructions s) (__functions s)
    (__instruction_sets s) (__read_types s) (__memories s) (__memory_aliases s)
    (f (__fields s)) (__current_instr_idx s) (__current_fn_idx s) (stdout s).
Definition upd_current_instr_idx (f : nat → nat) (s : State) : State :=
  mkState (heap s) (__constants s) (__address_spaces s) (__registers s)
    (__register_file s) (__register_alias s) (__instructions s) (__functions s)
    (__instruction_sets s) (__read_types s) (__memories s) (__memory_aliases s)
    (__fields s) (f (__current_instr_idx s)) (__current_fn_idx s) (stdout s).
Definition upd_current_fn_idx (f : nat → nat) (s : State) : State :=
  mkState (heap s) (__constants s) (__address_spaces s) (__registers s)
    (__register_file s) (__register_alias s) (__instructions s) (__functions s)
    (__instruction_sets s) (__read_types s) (__memories s) (__memory_aliases s)
    (__fields s) (__current_instr_idx s) (f (__current_fn_idx s)) (stdout s).
Definition upd_stdout (f : list string → list string) (s : State) : State :=
  mkState (heap s) (__constants s) (__address_spaces s) (__registers s)
    (__register_file s) (__register_alias s) (__instructions s) (__functions s)
    (__instruction_sets s) (__read_types s) (__memories s) (__memory_aliases s)
    (__fields s) (__current_instr_idx s) (__current_fn_idx s) (f (stdout s)).

Arguments upd_heap _ _ /.
Arguments upd_constants _ _ /.
Arguments upd_address_spaces _ _ /.
Arguments upd_registers _ _ /.
Arguments upd_register_file _ _ /.
Arguments upd_register_alias _ _ /.
Arguments upd_instructions _ _ /.
Arguments upd_functions _ _ /.
Arguments upd_instruction_sets _ _ /.
Arguments upd_read_types _ _ /.
Arguments upd_memories _ _ /.
Arguments upd_memory_aliases _ _ /.
Arguments upd_fields _ _ /.
Arguments upd_current_instr_idx _ _ /.
Arguments upd_current_fn_idx _ _ /.
Arguments upd_stdout _ _ /.

(** ** Exceptions and the handler monad *)

(** The exceptions the builder raises: [ValueError] from the explicit
    duplicate checks, [KeyError] from [self.__constants[name]],
    [AssertionError] from the [assert] statements. *)
Inductive Exn :=
| ValueError (msg : string)
| KeyError (key : string)
| AssertionError.

(** The error taxonomy of the specification, read off the exception: a
    duplicate declaration is reported by [ValueError], a reference that
    does not resolve by [KeyError] or [AssertionError]. *)
Inductive ErrorKind :=
| DuplicateDeclarationError
| UnresolvedReferenceError.

Definition error_kind (e : Exn) : ErrorKind :=
  match e with
  | ValueError _ => DuplicateDeclarationError
  | KeyError _ => UnresolvedReferenceError
  | AssertionError => UnresolvedReferenceError
  end.

(** How a handler ends: it returns a value to the tree, it raises lark's
    [Discard] (the node is dropped from the tree), or it raises an
    exception.  In all three cases the mutations made so far stay. *)
Inductive Outcome (A : Type) :=
| Return (a : A)
| Discard
| Raise (e : Exn).
Arguments Return {A} a.
Arguments Discard {A}.
Arguments Raise {A} e.

Definition M (A : Type) : Type := State → Outcome A * State.

Definition ret {A} (a : A) : M A := λ s, (Return a, s).
Definition raise {A} (e : Exn) : M A := λ s, (Raise e, s).
Definition discard {A} : M A := λ s, (Discard, s).
Definition bind {A B} (m : M A) (k : A → M B) : M B :=
  λ s, match m s with
       | (Return a, s') => k a s'
       | (Discard, s') => (Discard, s')
       | (Raise e, s') => (Raise e, s')
       end.
Definition get : M State := λ s, (Return s, s).
Definition modify (f : State → State) : M unit := λ s, (Return tt, f s).

Notation "x <~ m ;; k" := (bind m (λ x, k))
  (at level 100, m at next level, right associativity).
Notation "m ;;; k" := (bind m (λ _, k))
  (at level 100, right associativity).

(** Object creation: the new object goes to the end of its class's list
    and its index is its identity. *)
Definition new_Constant (o : Constant) : M loc :=
  λ s, (Return (length (hConstant (heap s))), upd_heap (upd_hConstant (λ l, l ++ [o])) s).
Definition new_AddressSpace (o : AddressSpace) : M loc :=
  λ s, (Return (length (hAddressSpace (heap s))), upd_heap (upd_hAddressSpace (λ l, l ++ [o])) s).
Definition new_Register (o : Register) : M loc :=
  λ s, (Return (length (hRegister (heap s))), upd_heap (upd_hRegister (λ l, l ++ [o])) s).
Definition new_RegisterFile (o : RegisterFile) : M loc :=
  λ s, (Return (length (hRegisterFile (heap s))), upd_heap (upd_hRegisterFile (λ l, l ++ [o])) s).
Definition new_RegisterAlias (o : RegisterAlias) : M loc :=
  λ s, (Return (length (hRegisterAlias (heap s))), upd_heap (upd_hRegisterAlias (λ l, l ++ [o])) s).
Definition new_Memory (o : Memory) : M loc :=
  λ s, (Return (length (hMemory (heap s))), upd_heap (upd_hMemory (λ l, l ++ [o])) s).
Definition new_Instruction (o : Instruction) : M loc :=
  λ s, (Return (length (hInstruction (heap s))), upd_heap (upd_hInstruction (λ l, l ++ [o])) s).
Definition new_Function (o : Function) : M loc :=
  λ s, (Return (length (hFunction (heap s))), upd_heap (upd_hFunction (λ l, l ++ [o])) s).

(** Python's [x or y] on the results of [dict.get]: [None] is falsy and
    an object of the model classes is truthy. *)
Definition py_or {A} (x y : option A) : option A :=
  match x with
  | Some a => Some a
  | None => y
  end.

(** Truthiness of an optional integer-or-name child ([if return_len],
    [not return_len]): [None], [0] and the empty string are falsy. *)
Definition truthy (v : option IntOrName) : bool :=
  match v with
  | None => false
  | Some (Lit z) => negb (z =? 0)%Z
  | Some (Name n) => negb (String.eqb n "")
  end.

(** In-place mutations of an object. *)
Definition set_value_attributes (value : option Z) (attributes : Attributes)
    (c : Constant) : Constant :=
  mkConstant (c_name c) value attributes.
Definition set_r_initval (v : Scalar) (r : Register) : Register :=
  mkRegister (r_name r) (r_attributes r) (Some v) (r_size r).
Definition set_ra_initval (v : Scalar) (r : RegisterAlias) : RegisterAlias :=
  mkRegisterAlias (ra_name r) (ra_actual r) (ra_index r) (ra_attributes r) (Some v) (ra_size r).
Definition children_append (c : loc) (m : Memory) : Memory :=
  mkMemory (m_name m) (m_range m) (m_size m) (m_attributes m) (m_children m ++ [c]).
Definition set_i_ext_name (n : string) (i : Instruction) : Instruction :=
  mkInstruction (i_name i) (i_attributes i) (i_encoding i) (i_disass i) (i_operation i)
                (i_code i) (i_mask i) (Some n).
Definition set_f_ext_name (n : string) (f : Function) : Function :=
  mkFunction (f_name f) (f_return_len f) (f_data_type f) (f_args f) (f_operation f) (Some n).

(** [reg._initval = val] for [reg] a reference to a register or an alias
    (a register file has no default; [register_default] never holds a
    reference to one). *)
Definition assign_initval (reg : RegRef) (v : Scalar) (h : Heap) : Heap :=
  match reg with
  | RReg l => upd_hRegister (alter (set_r_initval v) l) h
  | RAlias l => upd_hRegisterAlias (alter (set_ra_initval v) l) h
  | RFile _ => h
  end.

(** [obj.name] through a reference; a dict or the tree only ever holds
    references to allocated objects, so the default is never used by the
    builder. *)
Definition instruction_name (h : Heap) (l : loc) : string :=
  from_option i_name "" (hInstruction h !! l).

Definition regref_name (h : Heap) (r : RegRef) : option string :=
  match r with
  | RFile l => rf_name <$> hRegisterFile h !! l
  | RReg l => r_name <$> hRegister h !! l
  | RAlias l => ra_name <$> hRegisterAlias h !! l
  end.

(** [{obj.name: obj for obj in objs}]: later objects replace earlier
    ones of the same name. *)
Definition index_by_name {R} (name_of : R → option string) (objs : list R)
    : gmap string R :=
  foldl (λ (acc : gmap string R) (o : R),
           match name_of o with
           | Some n => <[n := o]> acc
           | None => acc
           end) ∅ objs.

(** [X if objs else None] for a list-valued child: [None] and the empty
    list are both falsy, and the tree's optional lists are given as
    lists. *)
Definition if_nonempty {A B} (objs : list A) (v : B) : option B :=
  match objs with
  | [] => None
  | _ => Some v
  end.

(** What a handler hands back to the tree. *)
Inductive TreeVal :=
| TConstant (l : loc)
| TAddressSpace (l : loc)
| TRegister (l : loc)
| TRegisterFile (l : loc)
| TRegisterAlias (l : loc)
| TBitField (b : BitField)
| TInstruction (l : loc)
| TFnParam (p : FnParam)
| TFunction (l : loc)
| TCoreDef (c : CoreDef).

(** ** The reduction handlers *)

Section Builder.

(** The [(code, mask)] pair that [model_classes.Instruction] derives
    from an encoding.  The class is not part of the sources under study;
    the builder only reads the two attributes, so the derivation is a
    parameter. *)
Variable code_mask : list EncElem → Z * Z.

Definition Instruction_init (name : string) (attributes : Attributes)
    (encoding : list EncElem) (disass : string) (operation : Operation) : Instruction :=
  mkInstruction name attributes encoding disass operation
                (fst (code_mask encoding)) (snd (code_mask encoding)) None.

Definition get_constant_or_val (name_or_val : IntOrName) : M Scalar :=
  match name_or_val with
  | Lit z => ret (SInt z)
  | Name n =>
      s <~ get ;;
      match __constants s !! n with
      | Some c => ret (SConst c)
      | None => raise (KeyError n)
      end
  end.

Definition constant_decl (name : string) (default_value : option Z) : M loc :=
  s <~ get ;;
  match __constants s !! name with
  | Some _ => raise (ValueError ("Constant " +:+ name +:+ " already defined!"))
  | None =>
      match __constants s !! name with
      | Some c => ret c
      | None =>
          c <~ new_Constant (mkConstant name default_value ∅) ;;
          modify (upd_constants <[name := c]>) ;;;
          ret c
      end
  end.

Definition constant_def (name : string) (value : option Z) (attributes : Attributes)
    : M loc :=
  s <~ get ;;
  match __constants s !! name with
  | Some c =>
      modify (upd_heap (upd_hConstant (alter (set_value_attributes value attributes) c))) ;;;
      ret c
  | None =>
      c <~ new_Constant (mkConstant name value attributes) ;;
      modify (upd_constants <[name := c]>) ;;;
      ret c
  end.

Definition address_space (name : string) (size length_base : IntOrName)
    (length_power : option IntOrName) (attribs : Attributes) : M loc :=
  s <~ get ;;
  match __address_spaces s !! name with
  | Some _ => raise (ValueError ("Address space " +:+ name +:+ " already defined!"))
  | None =>
      match __address_spaces s !! name with
      | Some a => ret a
      | None =>
          size <~ get_constant_or_val size ;;
          length_base <~ get_constant_or_val length_base ;;
          length_power <~ match length_power with
                          | Some p => get_constant_or_val p
                          | None => ret (SInt 1)
                          end ;;
          a <~ new_AddressSpace (mkAddressSpace name length_base length_power size attribs) ;;
          modify (upd_address_spaces <[name := a]>) ;;;
          m <~ new_Memory (mkMemory name (mkRangeSpec [length_base; SInt 0; length_power])
                                    size attribs []) ;;
          modify (upd_memories <[name := m]>) ;;;
          ret a
      end
  end.

Definition register (name : string) (size : IntOrName) (attributes : Attributes) : M loc :=
  s <~ get ;;
  match __registers s !! name with
  | Some _ => raise (ValueError ("Register " +:+ name +:+ " already defined!"))
  | None =>
      match __registers s !! name with
      | Some r => ret r
      | None =>
          size <~ get_constant_or_val size ;;
          r <~ new_Register (mkRegister name attributes None size) ;;
          modify (upd_registers <[name := r]>) ;;;
          m <~ new_Memory (mkMemory name (mkRangeSpec [SInt 0; SInt 0]) size attributes []) ;;
          modify (upd_memories <[name := m]>) ;;;
          ret r
      end
  end.

Definition register_file (_range : RangeSpec) (name : string) (size : IntOrName)
    (attributes : Attributes) : M loc :=
  s <~ get ;;
  match __register_file s !! name with
  | Some _ => raise (ValueError ("Register file " +:+ name +:+ " already defined!"))
  | None =>
      match __register_file s !! name with
      | Some r => ret r
      | None =>
          size <~ get_constant_or_val size ;;
          r <~ new_RegisterFile (mkRegisterFile name _range attributes size) ;;
          modify (upd_register_file <[name := r]>) ;;;
          m <~ new_Memory (mkMemory name _range size attributes []) ;;
          modify (upd_memories <[name := m]>) ;;;
          ret r
      end
  end.

(** [self.__register_file.get(actual) or self.__registers.get(actual) or
    self.__register_alias.get(actual)] *)
Definition resolve_actual (s : State) (actual : string) : option RegRef :=
  py_or (py_or (RFile <$> __register_file s !! actual)
               (RReg <$> __registers s !! actual))
        (RAlias <$> __register_alias s !! actual).

(** [self.__memories.get(actual) or self.__memory_aliases.get(actual)] *)
Definition resolve_parent_mem (s : State) (actual : string) : option loc :=
  py_or (__memories s !! actual) (__memory_aliases s !! actual).

(** [if not isinstance(index, RangeSpec): index = RangeSpec(index, index)] *)
Definition normalize_index (index : Index) : RangeSpec :=
  match index with
  | IdxRange r => r
  | IdxSingle i => mkRangeSpec [raw i; raw i]
  end.

Definition register_alias (name : string) (size : IntOrName) (actual : string)
    (index : Index) (attributes : Attributes) : M loc :=
  s <~ get ;;
  match __register_alias s !! name with
  | Some _ => raise (ValueError ("Register alias " +:+ name +:+ " already defined!"))
  | None =>
      match __register_alias s !! name with
      | Some r => ret r
      | None =>
          match resolve_actual s actual with
          | None => raise AssertionError
          | Some actual_reg =>
              size <~ get_constant_or_val size ;;
              r <~ new_RegisterAlias
                     (mkRegisterAlias name actual_reg index attributes None size) ;;
              modify (upd_register_alias <[name := r]>) ;;;
              let index := normalize_index index in
              s <~ get ;;
              match resolve_parent_mem s actual with
              | None => raise AssertionError
              | Some parent_mem =>
                  m <~ new_Memory (mkMemory name index size attributes []) ;;
                  modify (upd_heap (upd_hMemory (alter (children_append m) parent_mem))) ;;;
                  modify (upd_memory_aliases <[name := m]>) ;;;
                  ret r
              end
          end
      end
  end.

(** [data_type] is [None] when the optional child is absent; enumeration
    members are truthy. *)
Definition bit_field (name : string) (_range : RangeSpec) (data_type : option DataType)
    : M BitField :=
  let data_type := default DT_U data_type in
  let b := mkBitField name _range data_type in
  s <~ get ;;
  let idx := __current_instr_idx s in
  let group := default ∅ (__fields s !! idx) in
  let old := default [] (group !! name) in
  modify (upd_fields <[idx := <[name := old ++ [b]]> group]>) ;;;
  ret b.

Definition warn_overwriting (old new : string) : string :=
  "WARN: overwriting instruction " +:+ old +:+ " with " +:+ new.

Definition instruction (name : string) (attributes : Attributes)
    (encoding : list EncElem) (disass : string) (operation : Operation) : M loc :=
  let init := Instruction_init name attributes encoding disass operation in
  i <~ new_Instruction init ;;
  let instr_id := (i_code init, i_mask init) in
  s <~ get ;;
  match __instructions s !! instr_id with
  | Some old =>
      modify (upd_stdout (λ out, out ++ [warn_overwriting (instruction_name (heap s) old) name]))
  | None => ret tt
  end ;;;
  modify (upd_instructions <[instr_id := i]>) ;;;
  modify (upd_current_instr_idx S) ;;;
  ret i.

Definition fn_arg_def (name : string) (data_type : option DataType) (size : IntOrName)
    : M FnParam :=
  let data_type := default DT_U data_type in
  size <~ get_constant_or_val size ;;
  ret (mkFnParam name size data_type).

Definition function_def (return_len : option IntOrName) (name : string)
    (fn_args : list FnParam) (data_type : option DataType) (attributes : Attributes)
    (operation : Operation) : M loc :=
  let data_type :=
    match data_type with
    | Some d => d
    | None => if truthy return_len then DT_U else DT_NONE
    end in
  return_len <~ (if truthy return_len
                 then match return_len with
                      | Some v => r <~ get_constant_or_val v ;; ret (Some r)
                      | None => ret None
                      end
                 else ret None) ;;
  f <~ new_Function (mkFunction name return_len data_type fn_args operation None) ;;
  modify (upd_functions <[name := f]>) ;;;
  modify (upd_current_fn_idx S) ;;;
  ret f.

Definition instruction_set (name : string) (extension : option string)
    (constants address_spaces : list loc) (registers : list RegRef)
    (functions instructions : list loc) : M TreeVal :=
  s <~ get ;;
  let h := heap s in
  let constants_dict :=
    if_nonempty constants
      (index_by_name (λ l, c_name <$> hConstant h !! l) constants) in
  let address_spaces_dict :=
    if_nonempty address_spaces
      (index_by_name (λ l, as_name <$> hAddressSpace h !! l) address_spaces) in
  let registers_dict :=
    if_nonempty registers (index_by_name (regref_name h) registers) in
  let instructions_dict :=
    if_nonempty instructions
      (index_by_name (λ l, i_name <$> hInstruction h !! l) instructions) in
  modify (upd_heap (upd_hInstruction
            (λ objs, foldl (λ objs i, alter (set_i_ext_name name) i objs) objs instructions))) ;;;
  modify (upd_heap (upd_hFunction
            (λ objs, foldl (λ objs f, alter (set_f_ext_name name) f objs) objs functions))) ;;;
  let i_s := mkInstructionSet name extension constants_dict address_spaces_dict
                              registers_dict instructions_dict in
  modify (upd_instruction_sets <[name := i_s]>) ;;;
  modify (upd_read_types (λ keys, if decide (name ∈ keys) then keys else keys ++ [name])) ;;;
  discard.

(** [self.__register_alias.get(name) or self.__registers.get(name)] *)
Definition resolve_default_target (s : State) (name : string) : option RegRef :=
  py_or (RAlias <$> __register_alias s !! name) (RReg <$> __registers s !! name).

Definition register_default (name : string) (value_or_ref : IntOrName) : M TreeVal :=
  s <~ get ;;
  match resolve_default_target s name with
  | None => raise AssertionError
  | Some reg =>
      val <~ get_constant_or_val value_or_ref ;;
      modify (upd_heap (assign_initval reg val)) ;;;
      discard
  end.

(** [{**a, **b}]: the entries of [b] replace those of [a]. *)
Definition dict_merge {V} (a b : gmap string V) : gmap string V := b ∪ a.

(** The local [merged_registers] of [core_def]:
    [{**self.__register_file, **self.__registers, **self.__register_alias}]. *)
Definition merged_registers (s : State) : gmap string RegRef :=
  dict_merge (dict_merge (RFile <$> __register_file s) (RReg <$> __registers s))
             (RAlias <$> __register_alias s).

Definition core_def (name : string) (template : option string) : M CoreDef :=
  s <~ get ;;
  let merged_registers := merged_registers s in
  let c := mkCoreDef name (__read_types s) template (__constants s) (__address_spaces s)
                     (__register_file s) (__registers s) (__register_alias s)
                     (__memories s) (__memory_aliases s) (__functions s)
                     (__instructions s) in
  ret c.

(** ** Reductions

    One constructor per handler that reads or mutates the builder; the
    handlers that hand their arguments through ([Base], [make_list],
    [encoding], ...) are left out. *)
Inductive Call :=
| call_constant_decl (name : string) (default_value : option Z)
| call_constant_def (name : string) (value : option Z) (attributes : Attributes)
| call_address_space (name : string) (size length_base : IntOrName)
    (length_power : option IntOrName) (attribs : Attributes)
| call_register (name : string) (size : IntOrName) (attributes : Attributes)
| call_register_file (_range : RangeSpec) (name : string) (size : IntOrName)
    (attributes : Attributes)
| call_register_alias (name : string) (size : IntOrName) (actual : string)
    (index : Index) (attributes : Attributes)
| call_bit_field (name : string) (_range : RangeSpec) (data_type : option DataType)
| call_instruction (name : string) (attributes : Attributes) (encoding : list EncElem)
    (disass : string) (operation : Operation)
| call_fn_arg_def (name : string) (data_type : option DataType) (size : IntOrName)
| call_function_def (return_len : option IntOrName) (name : string)
    (fn_args : list FnParam) (data_type : option DataType) (attributes : Attributes)
    (operation : Operation)
| call_instruction_set (name : string) (extension : option string)
    (constants address_spaces : list loc) (registers : list RegRef)
    (functions instructions : list loc)
| call_register_default (name : string) (value_or_ref : IntOrName)
| call_core_def (name : string) (template : option string).

Definition returning {A} (f : A → TreeVal) (m : M A) : M TreeVal :=
  a <~ m ;; ret (f a).

Definition run (c : Call) : M TreeVal :=
  match c with
  | call_constant_decl name default_value =>
      returning TConstant (constant_decl name default_value)
  | call_constant_def name value attributes =>
      returning TConstant (constant_def name value attributes)
  | call_address_space name size length_base length_power attribs =>
      returning TAddressSpace (address_space name size length_base length_power attribs)
  | call_register name size attributes =>
      returning TRegister (register name size attributes)
  | call_register_file _range name size attributes =>
      returning TRegisterFile (register_file _range name size attributes)
  | call_register_alias name size actual index attributes =>
      returning TRegisterAlias (register_alias name size actual index attributes)
  | call_bit_field name _range data_type =>
      returning TBitField (bit_field name _range data_type)
  | call_instruction name attributes encoding disass operation =>
      returning TInstruction (instruction name attributes encoding disass operation)
  | call_fn_arg_def name data_type size =>
      returning TFnParam (fn_arg_def name data_type size)
  | call_function_def return_len name fn_args data_type attributes operation =>
      returning TFunction (function_def return_len name fn_args data_type attributes operation)
  | call_instruction_set name extension constants address_spaces registers functions
                         instructions =>
      instruction_set name extension constants address_spaces registers functions instructions
  | call_register_default name value_or_ref =>
      register_default name value_or_ref
  | call_core_def name template =>
      returning TCoreDef (core_def name template)
  end.

(** The pass is a sequence of reductions, each run on the state the
    previous one left (whatever its outcome). *)
Definition step (s s' : State) : Prop := ∃ c, (run c s).2 = s'.
Definition steps : State → State → Prop := rtc step.
Definition reachable (s : State) : Prop := steps init s.

End Builder.

(** ** Namespaces *)

Inductive Kind :=
| KConstant
| KAddressSpace
| KRegister
| KRegisterFile
| KRegisterAlias.

Definition namespace (k : Kind) (s : State) : gmap string loc :=
  match k with
  | KConstant => __constants s
  | KAddressSpace => __address_spaces s
  | KRegister => __registers s
  | KRegisterFile => __register_file s
  | KRegisterAlias => __register_alias s
  end.

(** The declaration handlers, with the namespace each one checks and the
    name it declares. *)
Definition declares (c : Call) : option (Kind * string) :=
  match c with
  | call_constant_decl name _ => Some (KConstant, name)
  | call_address_space name _ _ _ _ => Some (KAddressSpace, name)
  | call_register name _ _ => Some (KRegister, name)
  | call_register_file _ name _ _ => Some (KRegisterFile, name)
  | call_register_alias name _ _ _ _ => Some (KRegisterAlias, name)
  | _ => None
  end.

(** No entry of a namespace table or of the instruction table is ever
    removed. *)
Record extends (s s' : State) : Prop := mkExtends {
  ext_namespace : ∀ k, dom (namespace k s) ⊆ dom (namespace k s');
  ext_instructions : dom (__instructions s) ⊆ dom (__instructions s') }.

(** ** The memory tree

    What the reachable states have in common, as far as the memory views
    go: the two memory tables hold references to allocated [Memory]
    objects, and every child of a memory node is an allocated memory
    view that carries the name of a declared register alias. *)
Record wf (s : State) : Prop := mkWf {
  wf_memories : ∀ n l, __memories s !! n = Some l → l < length (hMemory (heap s));
  wf_memory_aliases :
    ∀ n l, __memory_aliases s !! n = Some l → l < length (hMemory (heap s));
  wf_children :
    ∀ p m c, hMemory (heap s) !! p = Some m → c ∈ m_children m →
      ∃ m', hMemory (heap s) !! c = Some m' ∧ is_Some (__register_alias s !! m_name m') }.


(** ** What the entity classes derive

    The key of an instruction is derived in [model_classes]; a stand-in
    for the derivation is needed to run the handlers on concrete
    input. *)

Definition scalar_int (v : Scalar) : Z :=
  match v with
  | SInt z => z
  | _ => 0%Z
  end.

Definition field_width (b : BitField) : Z :=
  match rs_args (bf_range b) with
  | [hi; lo] => (scalar_int hi - scalar_int lo + 1)%Z
  | _ => 0%Z
  end.

(** Modelled from the spec: the derivation of an instruction's
    [(code, mask)] pair, which [model_classes.Instruction] performs and
    the sources under study do not contain.  The spec: "combine each
    BitVal's value/width into the fixed-bit accumulator, and mark the
    corresponding bit positions as don't care for each BitField"; a
    [BitVal] carries its width minus one.  The elements are taken from
    the last (the least significant) to the first. *)
Definition spec_code_mask (encoding : list EncElem) : Z * Z :=
  let '(code, mask, _) :=
    foldr (λ e acc,
             let '(code, mask, pos) := acc in
             match e with
             | EVal v =>
                 let w := (bv_length v + 1)%Z in
                 (Z.lor code (Z.shiftl (bv_value v) pos),
                  Z.lor mask (Z.shiftl (2 ^ w - 1) pos),
                  (pos + w)%Z)
             | EField b => (code, mask, (pos + field_width b)%Z)
             end)
          (0%Z, 0%Z, 0%Z) encoding in
  (code, mask).


(** ** Declarations with a memory view

    The three handlers that enter a [Memory] object in [__memories]. *)
Inductive MemDecl :=
| decl_address_space (name : string) (size length_base : IntOrName)
    (length_power : option IntOrName) (attribs : Attributes)
| decl_register (name : string) (size : IntOrName) (attributes : Attributes)
| decl_register_file (_range : RangeSpec) (name : string) (size : IntOrName)
    (attributes : Attributes).

Definition mem_call (d : MemDecl) : Call :=
  match d with
  | decl_address_space name size length_base length_power attribs =>
      call_address_space name size length_base length_power attribs
  | decl_register name size attributes => call_register name size attributes
  | decl_register_file _range name size attributes =>
      call_register_file _range name size attributes
  end.

Definition mem_kind (d : MemDecl) : Kind :=
  match d with
  | decl_address_space _ _ _ _ _ => KAddressSpace
  | decl_register _ _ _ => KRegister
  | decl_register_file _ _ _ _ => KRegisterFile
  end.

Definition mem_name (d : MemDecl) : string :=
  match d with
  | decl_address_space name _ _ _ _ => name
  | decl_register name _ _ => name
  | decl_register_file _ name _ _ => name
  end.

(** [get_constant_or_val] does not raise on [v]. *)
Definition resolves (s : State) (v : IntOrName) : Prop :=
  match v with
  | Lit _ => True
  | Name n => is_Some (__constants s !! n)
  end.

(** Every size and length argument of the declaration resolves. *)
Definition mem_resolvable (s : State) (d : MemDecl) : Prop :=
  match d with
  | decl_address_space _ size length_base length_power _ =>
      resolves s size ∧ resolves s length_base ∧ from_option (resolves s) True length_power
  | decl_register _ size _ => resolves s size
  | decl_register_file _ _ size _ => resolves s size
  end.

(** The view a declaration pairs with its entity: same name, and the
    range the handler builds. *)
Definition mem_view_range_matches (d : MemDecl) (view : Memory) : Prop :=
  match d with
  | decl_address_space _ _ _ _ _ =>
      ∃ base power, m_range view = mkRangeSpec [base; SInt 0; power]
  | decl_register _ _ _ => m_range view = mkRangeSpec [SInt 0; SInt 0]
  | decl_register_file _range _ _ _ => m_range view = _range
  end.

Definition mem_attributes (d : MemDecl) : Attributes :=
  match d with
  | decl_address_space _ _ _ _ attribs => attribs
  | decl_register _ _ attributes => attributes
  | decl_register_file _ _ _ attributes => attributes
  end.

(** The key under which [instruction] files an encoding. *)
Definition instr_id (code_mask : list EncElem → Z * Z) (encoding : list EncElem) : Z * Z :=
  ((code_mask encoding).1, (code_mask encoding).2).

(** ** Scenarios *)

(** A sequence of reductions, run from a given state. *)
Definition run_all (code_mask : list EncElem → Z * Z) (cs : list Call) (s : State)
    : State :=
  foldl (λ s c, (run code_mask c s).2) s cs.

(** [WLEN = 32] declared in a fresh builder. *)
Definition with_WLEN : State :=
  run_all spec_code_mask [call_constant_decl "WLEN" (Some 32%Z)] init.

(** A register [X0] of size 32 declared in a fresh builder. *)
Definition with_X0 : State :=
  run_all spec_code_mask [call_register "X0" (Lit 32) ∅] init.


(** The alias [X0L] over bits 15..0 of [X0]. *)
Definition X0L_range : Index := IdxRange (mkRangeSpec [SInt 15; SInt 0]).

(** The builder after [X0] and its alias [X0L]. *)
Definition with_X0L : State :=
  (register_alias "X0L" (Lit 16) "X0" X0L_range ∅ with_X0).2.

(** The builder after [WLEN = 32] and the address space [MEM] of length
    base [WLEN] and power 1. *)
Definition with_MEM : State :=
  (address_space "MEM" (Lit 8) (Name "WLEN") (Some (Lit 1)) ∅ with_WLEN).2.

(** The builder after [X0] and an alias [X0B] at the single index 3. *)
Definition with_X0B : State :=
  (register_alias "X0B" (Lit 1) "X0" (IdxSingle (Lit 3)) ∅ with_X0).2.




(** Two encodings with the same fixed bits (an opcode of seven bits below
    a field of 25) and differently named fields. *)
Definition enc_one : list EncElem :=
  [EField (mkBitField "imm" (mkRangeSpec [SInt 31; SInt 7]) DT_U);
   EVal (mkBitVal 6 51)].
Definition enc_two : list EncElem :=
  [EField (mkBitField "off" (mkRangeSpec [SInt 31; SInt 7]) DT_U);
   EVal (mkBitVal 6 51)].


(** ** What the reachable states have in common *)

(** A table agrees with the objects of its class: every entry refers to
    an allocated object, filed under that object's own key. *)
Definition keyed {K A} `{Countable K} (key_of : A → K) (t : gmap K loc) (h : list A)
    : Prop :=
  ∀ k l, t !! k = Some l → ∃ o, h !! l = Some o ∧ key_of o = k.

(** [instr_id = (i.code, i.mask)] *)
Definition instruction_key (i : Instruction) : Z * Z := (i_code i, i_mask i).

Record consistent (s : State) : Prop := mkConsistent {
  con_constants : keyed c_name (__constants s) (hConstant (heap s));
  con_address_spaces : keyed as_name (__address_spaces s) (hAddressSpace (heap s));
  con_registers : keyed r_name (__registers s) (hRegister (heap s));
  con_register_file : keyed rf_name (__register_file s) (hRegisterFile (heap s));
  con_register_alias : keyed ra_name (__register_alias s) (hRegisterAlias (heap s));
  con_functions : keyed f_name (__functions s) (hFunction (heap s));
  con_memories : keyed m_name (__memories s) (hMemory (heap s));
  con_memory_aliases : keyed m_name (__memory_aliases s) (hMemory (heap s));
  con_instructions : keyed instruction_key (__instructions s) (hInstruction (heap s)) }.

(** Every declared address space, register and register file has an
    entry in [__memories], every alias one in [__memory_aliases], and
    the memory tables hold nothing else. *)
Record views_paired (s : State) : Prop := mkViewsPaired {
  vp_memories :
    dom (__memories s)
      = dom (__address_spaces s) ∪ dom (__registers s) ∪ dom (__register_file s);
  vp_memory_aliases : dom (__memory_aliases s) = dom (__register_alias s) }.

(** How the objects of a class change from one state to a later one:
    the object at a location is still there, and [R] relates what it was
    to what it is. *)
Definition evolves {A} (R : A → A → Prop) (h h' : list A) : Prop :=
  ∀ l o, h !! l = Some o → ∃ o', h' !! l = Some o' ∧ R o o'.

(** What the handlers leave alone in an object once it is built: all of
    an address space and of a register file; all but the value and the
    attributes of a constant; all but the default of a register or an
    alias; all but the children of a memory view, which only gain
    elements at the end; all but [ext_name] of an instruction or a
    function. *)
Definition constant_kept (o o' : Constant) : Prop := c_name o' = c_name o.

Definition register_kept (o o' : Register) : Prop :=
  r_name o' = r_name o ∧ r_attributes o' = r_attributes o ∧ r_size o' = r_size o.

Definition alias_kept (o o' : RegisterAlias) : Prop :=
  ra_name o' = ra_name o ∧ ra_actual o' = ra_actual o ∧ ra_index o' = ra_index o
  ∧ ra_attributes o' = ra_attributes o ∧ ra_size o' = ra_size o.

Definition memory_kept (o o' : Memory) : Prop :=
  m_name o' = m_name o ∧ m_range o' = m_range o ∧ m_size o' = m_size o
  ∧ m_attributes o' = m_attributes o ∧ m_children o `prefix_of` m_children o'.

Definition instruction_kept (o o' : Instruction) : Prop :=
  i_name o' = i_name o ∧ i_attributes o' = i_attributes o ∧ i_encoding o' = i_encoding o
  ∧ i_disass o' = i_disass o ∧ i_operation o' = i_operation o
  ∧ i_code o' = i_code o ∧ i_mask o' = i_mask o.

Definition function_kept (o o' : Function) : Prop :=
  f_name o' = f_name o ∧ f_return_len o' = f_return_len o ∧ f_data_type o' = f_data_type o
  ∧ f_args o' = f_args o ∧ f_operation o' = f_operation o.

Record heap_evolves (h h' : Heap) : Prop := mkHeapEvolves {
  ev_constants : evolves constant_kept (hConstant h) (hConstant h');
  ev_address_spaces : evolves eq (hAddressSpace h) (hAddressSpace h');
  ev_registers : evolves register_kept (hRegister h) (hRegister h');
  ev_register_files : evolves eq (hRegisterFile h) (hRegisterFile h');
  ev_register_aliases : evolves alias_kept (hRegisterAlias h) (hRegisterAlias h');
  ev_memories : evolves memory_kept (hMemory h) (hMemory h');
  ev_instructions : evolves instruction_kept (hInstruction h) (hInstruction h');
  ev_functions : evolves function_kept (hFunction h) (hFunction h') }.

(** What an alias refers to was there before it: an allocated register
    file or register, or an alias built earlier. *)
Definition alias_refs_earlier (s : State) : Prop :=
  ∀ l a, hRegisterAlias (heap s) !! l = Some a →
    match ra_actual a with
    | RFile f => is_Some (hRegisterFile (heap s) !! f)
    | RReg r => is_Some (hRegister (heap s) !! r)
    | RAlias l' => l' < l
    end.

(** The memory views form a forest: a child was built after its parent,
    occurs once in its parent's list, and has one parent only. *)
Record forest (s : State) : Prop := mkForest {
  fo_order :
    ∀ p m c, hMemory (heap s) !! p = Some m → c ∈ m_children m → p < c;
  fo_nodup : ∀ p m, hMemory (heap s) !! p = Some m → NoDup (m_children m);
  fo_parent :
    ∀ p1 p2 m1 m2 c,
      hMemory (heap s) !! p1 = Some m1 → hMemory (heap s) !! p2 = Some m2 →
      c ∈ m_children m1 → c ∈ m_children m2 → p1 = p2 }.

(** The two indices count the instructions and the functions built. *)
Definition counters (s : State) : Prop :=
  __current_instr_idx s = length (hInstruction (heap s))
  ∧ __current_fn_idx s = length (hFunction (heap s)).

(** No bit field is grouped under an index the builder has not reached. *)
Definition fields_fresh (s : State) : Prop :=
  ∀ idx, __current_instr_idx s < idx → __fields s !! idx = None.

(** The keys of [__read_types]: each once, and exactly the names of the
    instruction sets. *)
Definition read_types_ok (s : State) : Prop :=
  NoDup (__read_types s)
  ∧ ∀ n, n ∈ __read_types s ↔ is_Some (__instruction_sets s !! n).

(** Size and attributes of the entity a declaration handler returned. *)
Definition entity_size_attributes (h : Heap) (v : TreeVal) : option (Scalar * Attributes) :=
  match v with
  | TAddressSpace l => (λ o, (as_size o, as_attributes o)) <$> hAddressSpace h !! l
  | TRegister l => (λ o, (r_size o, r_attributes o)) <$> hRegister h !! l
  | TRegisterFile l => (λ o, (rf_size o, rf_attributes o)) <$> hRegisterFile h !! l
  | TRegisterAlias l => (λ o, (ra_size o, ra_attributes o)) <$> hRegisterAlias h !! l
  | _ => None
  end.

(** The memory table a declaration of a kind enters its view in. *)
Definition view_table (k : Kind) (s : State) : gmap string loc :=
  match k with
  | KRegisterAlias => __memory_aliases s
  | _ => __memories s
  end.

(** A pass over a small description: a constant, a register sized by
    it, a register file, an alias, a default, two bit fields and an
    instruction, a function and the instruction set that holds them. *)
Definition small_pass : list Call :=
  [call_constant_decl "XLEN" (Some 32%Z);
   call_register "X0" (Name "XLEN") ∅;
   call_register_file (mkRangeSpec [SInt 31; SInt 0]) "X" (Name "XLEN") ∅;
   call_register_alias "X0L" (Lit 16) "X0" X0L_range ∅;
   call_register_default "X0" (Lit 0);
   call_bit_field "imm" (mkRangeSpec [SInt 31; SInt 7]) None;
   call_bit_field "imm" (mkRangeSpec [SInt 31; SInt 7]) None;
   call_instruction "ONE" ∅ enc_one "one" "op1";
   call_function_def None "f" [] None ∅ "body";
   call_instruction_set "RV" None [0] [] [RReg 0; RFile 0; RAlias 0] [0] [0]].

Definition after_small_pass : State := run_all spec_code_mask small_pass init.

(** The same pass in two parts: its four declarations, then the rest. *)
Definition after_declarations : State :=
  run_all spec_code_mask (take 4 small_pass) init.
Definition after_rest : State :=
  run_all spec_code_mask (drop 4 small_pass) after_declarations.

(** A register sized by [WLEN], declared after [WLEN]. *)
Definition with_sized_register : State :=
  (register "R" (Name "WLEN") ∅ with_WLEN).2.

(** The small pass up to its instruction set. *)
Definition before_instruction_set : State :=
  run_all spec_code_mask (take 9 small_pass) init.

(** ** Properties of the handlers *)

Ltac exec :=
  unfold run, returning, constant_decl, constant_def, address_space, register,
    register_file, register_alias, bit_field, instruction, fn_arg_def, function_def,
    instruction_set, register_default, core_def, get_constant_or_val, assign_initval,
    new_Constant, new_AddressSpace, new_Register, new_RegisterFile,
    new_RegisterAlias, new_Memory, new_Instruction, new_Function,
    bind, get, modify, ret, raise, discard in *.

(** Reduce the projections of an explicitly updated state, and nothing
    else. *)
Ltac fields :=
  cbn [heap __constants __address_spaces __registers __register_file __register_alias
       __instructions __functions __instruction_sets __read_types __memories
       __memory_aliases __fields __current_instr_idx __current_fn_idx stdout
       hConstant hAddressSpace hRegister hRegisterFile hRegisterAlias hMemory
       hInstruction hFunction
       upd_heap upd_constants upd_address_spaces upd_registers upd_register_file
       upd_register_alias upd_instructions upd_functions upd_instruction_sets
       upd_read_types upd_memories upd_memory_aliases upd_fields
       upd_current_instr_idx upd_current_fn_idx upd_stdout
       upd_hConstant upd_hAddressSpace upd_hRegister upd_hRegisterFile
       upd_hRegisterAlias upd_hMemory upd_hInstruction upd_hFunction
       assign_initval fst snd] in *.

Section Properties.

Variable code_mask : list EncElem → Z * Z.

Lemma run_extends c s : extends s (run code_mask c s).2.
Proof.
  destruct c; exec; simpl;
    repeat (case_match; simpl in *; simplify_eq);
    (split; [intros []; simpl|simpl]; try rewrite !dom_insert_L; set_solver).
Qed.


Lemma extends_refl s : extends s s.
Proof. by split. Qed.

Lemma extends_trans s1 s2 s3 : extends s1 s2 → extends s2 s3 → extends s1 s3.
Proof.
  intros [H1 H1'] [H2 H2']. split.
  - intros k. etrans; [apply H1|apply H2].
  - etrans; [apply H1'|apply H2'].
Qed.

Lemma steps_extends s s' : steps code_mask s s' → extends s s'.
Proof.
  induction 1 as [|s1 s2 s3 [c Hc] _ IH]; [apply extends_refl|].
  eapply extends_trans; [|exact IH]. subst s2. apply run_extends.
Qed.

Lemma steps_namespace k n s s' :
  steps code_mask s s' → is_Some (namespace k s !! n) → is_Some (namespace k s' !! n).
Proof.
  intros Hs%steps_extends. rewrite <-!elem_of_dom. apply (ext_namespace _ _ Hs).
Qed.

(** A declaration handler that finds its name in its table raises
    [ValueError] before it touches anything. *)
Lemma declared_raises c k n s :
  declares c = Some (k, n) →
  is_Some (namespace k s !! n) →
  ∃ msg, run code_mask c s = (Raise (ValueError msg), s).
Proof.
  intros Hc [l Hl].
  destruct c; simpl in Hc; simplify_eq; simpl in Hl; exec; simpl; rewrite Hl; eauto.
Qed.

(** A declaration handler that returns has entered its name. *)
Lemma declares_enters c k n s v s1 :
  declares c = Some (k, n) →
  run code_mask c s = (Return v, s1) →
  is_Some (namespace k s1 !! n).
Proof.
  intros Hc Hrun.
  destruct c; simpl in Hc; simplify_eq; exec; simpl in *;
    repeat (case_match; simpl in *; simplify_eq);
    simpl; rewrite lookup_insert_eq; eauto.
Qed.

Lemma wf_init : wf init.
Proof. split; simpl; intros *; try rewrite lookup_empty; done. Qed.

(** A reduction that leaves the memory objects and tables alone. *)
Lemma wf_frame s s' :
  wf s →
  hMemory (heap s') = hMemory (heap s) →
  __memories s' = __memories s →
  __memory_aliases s' = __memory_aliases s →
  dom (__register_alias s) ⊆ dom (__register_alias s') →
  wf s'.
Proof.
  intros [H1 H2 H3] Hh Hm Ha Hd. split; rewrite ?Hh, ?Hm, ?Ha; [done..|].
  intros p m c Hp Hc. destruct (H3 p m c Hp Hc) as (m' & Hm' & Hin).
  exists m'. split; [done|]. apply elem_of_dom, Hd, elem_of_dom, Hin.
Qed.

(** A declaration that allocates a childless view and enters it in
    [__memories]. *)
Lemma wf_new_memory s s' n o :
  wf s →
  hMemory (heap s') = hMemory (heap s) ++ [o] →
  m_children o = [] →
  __memories s' = <[n := length (hMemory (heap s))]> (__memories s) →
  __memory_aliases s' = __memory_aliases s →
  dom (__register_alias s) ⊆ dom (__register_alias s') →
  wf s'.
Proof.
  intros [H1 H2 H3] Hh Ho Hm Ha Hd. split; rewrite ?Hh, ?Hm, ?Ha, ?length_app; simpl.
  - intros k l. rewrite lookup_insert. case_decide; [intros [= <-]; lia|].
    intros Hl%H1. lia.
  - intros k l Hl%H2. lia.
  - intros p m c Hp Hc.
    destruct (decide (p < length (hMemory (heap s)))) as [Hlt|Hge].
    + rewrite lookup_app_l in Hp by done.
      destruct (H3 p m c Hp Hc) as (m' & Hm' & Hin).
      exists m'. split.
      * rewrite lookup_app_l; [done|]. by eapply lookup_lt_Some.
      * apply elem_of_dom, Hd, elem_of_dom, Hin.
    + rewrite lookup_app_r in Hp by lia.
      destruct (p - length (hMemory (heap s))) as [|k]; simpl in Hp; [|done].
      simplify_eq. rewrite Ho in Hc. by apply elem_of_nil in Hc.
Qed.

(** [register_alias]: a childless view named after the alias is
    allocated, appended to the children of an existing node and entered
    in [__memory_aliases]. *)
Lemma wf_new_alias s s' n o p :
  wf s →
  hMemory (heap s')
    = alter (children_append (length (hMemory (heap s)))) p (hMemory (heap s) ++ [o]) →
  p < length (hMemory (heap s)) →
  m_children o = [] →
  m_name o = n →
  is_Some (__register_alias s' !! n) →
  __memories s' = __memories s →
  __memory_aliases s' = <[n := length (hMemory (heap s))]> (__memory_aliases s) →
  dom (__register_alias s) ⊆ dom (__register_alias s') →
  wf s'.
Proof.
  intros [H1 H2 H3] Hh Hp Ho Hn Hin Hm Ha Hd.
  assert (Hnew : (hMemory (heap s')) !! length (hMemory (heap s)) = Some o).
  { rewrite Hh, list_lookup_alter_ne by lia. by rewrite list_lookup_middle. }
  assert (Hold : ∀ q m, hMemory (heap s) !! q = Some m →
            ∃ m', hMemory (heap s') !! q = Some m' ∧ m_name m' = m_name m).
  { intros q m Hq. rewrite Hh.
    assert (Hq' : (hMemory (heap s) ++ [o]) !! q = Some m).
    { rewrite lookup_app_l; [done|]. by eapply lookup_lt_Some. }
    destruct (decide (p = q)) as [->|Hne].
    - rewrite list_lookup_alter_eq, Hq'. simpl. by eexists.
    - rewrite list_lookup_alter_ne by done. eauto. }
  split; rewrite ?Hm, ?Ha, ?Hh, ?length_alter, ?length_app; simpl.
  - intros k l Hl%H1. lia.
  - intros k l. rewrite lookup_insert. case_decide; [intros [= <-]; lia|].
    intros Hl%H2. lia.
  - intros q m c Hq Hc.
    assert (Hcase : (∃ m0, hMemory (heap s) !! q = Some m0 ∧
                        (c ∈ m_children m0 ∨ c = length (hMemory (heap s))))
                    ∨ (m = o)).
    { destruct (decide (q < length (hMemory (heap s)))) as [Hlt|Hge].
      - left. destruct (lookup_lt_is_Some_2 _ _ Hlt) as [m0 Hm0]. exists m0.
        split; [done|].
        assert (Hq' : (hMemory (heap s) ++ [o]) !! q = Some m0)
          by (by rewrite lookup_app_l).
        destruct (decide (p = q)) as [->|Hne].
        + rewrite list_lookup_alter_eq, Hq' in Hq. simpl in Hq. simplify_eq.
          simpl in Hc. apply elem_of_app in Hc as [Hc|Hc]; [by left|].
          right. by apply list_elem_of_singleton in Hc.
        + rewrite list_lookup_alter_ne, Hq' in Hq by done. simplify_eq. by left.
      - right. rewrite list_lookup_alter_ne in Hq by lia.
        rewrite lookup_app_r in Hq by lia.
        destruct (q - length (hMemory (heap s))) as [|k]; simpl in Hq; [|done].
        by simplify_eq. }
    destruct Hcase as [(m0 & Hm0 & [Hc0| ->])| ->].
    + destruct (H3 q m0 c Hm0 Hc0) as (m' & Hm' & Hin').
      destruct (Hold c m' Hm') as (m'' & Hm'' & Hname).
      exists m''. rewrite <-Hh. split; [done|]. rewrite Hname.
      apply elem_of_dom, Hd, elem_of_dom, Hin'.
    + exists o. rewrite <-Hh. split; [done|]. by rewrite Hn.
    + rewrite Ho in Hc. by apply elem_of_nil in Hc.
Qed.

Lemma wf_parent s actual p :
  wf s → resolve_parent_mem s actual = Some p → p < length (hMemory (heap s)).
Proof.
  intros [H1 H2 _]. unfold resolve_parent_mem, py_or.
  destruct (__memories s !! actual) eqn:Hm; [intros [= <-]; eauto|eauto].
Qed.

Ltac wf_unchanged Hwf :=
  eapply wf_frame; [exact Hwf|simpl; try done; try rewrite dom_insert_L; set_solver..].

Lemma run_wf c s : wf s → wf (run code_mask c s).2.
Proof.
  intros Hwf. destruct c.
  all: exec; unfold resolve_parent_mem in *; simpl;
       repeat (case_match; simpl in *; simplify_eq); simpl.
  all: try first [exact Hwf | wf_unchanged Hwf].
  all: try (eapply wf_new_memory;
              [exact Hwf|simpl; reflexivity|done|simpl; reflexivity|done|simpl; set_solver]).
  all: eapply wf_new_alias;
         [exact Hwf|simpl; reflexivity|eapply wf_parent; [exact Hwf|eassumption]
         |done|simpl; reflexivity|simpl; by rewrite lookup_insert_eq|done
         |simpl; reflexivity|simpl; rewrite dom_insert_L; set_solver].
Qed.



(** ** Duplicate declarations *)

(** C1: each of the five declaration handlers ([constant_decl],
    [address_space], [register], [register_file], [register_alias]) that
    finds the given name in its own namespace table raises [ValueError],
    the duplicate-declaration error, and leaves the builder exactly as it
    was: no entity is constructed and none is merged.  Consequently, once
    a declaration of a name has succeeded, every later call of the same
    handler with that name is an error, whatever was reduced in
    between. *)
Theorem duplicate_declaration_rejected c k n s :
  declares c = Some (k, n) →
  (is_Some (namespace k s !! n) →
     ∃ msg, run code_mask c s = (Raise (ValueError msg), s)
            ∧ error_kind (ValueError msg) = DuplicateDeclarationError)
  ∧ (∀ v s1 s2 c',
       run code_mask c s = (Return v, s1) →
       steps code_mask s1 s2 →
       declares c' = Some (k, n) →
       ∃ msg, run code_mask c' s2 = (Raise (ValueError msg), s2)
              ∧ error_kind (ValueError msg) = DuplicateDeclarationError).
Proof.
  intros Hc. split.
  - intros Hin. destruct (declared_raises c k n s Hc Hin) as [msg Hmsg]. eauto.
  - intros v s1 s2 c' Hrun Hsteps Hc'.
    pose proof (declares_enters c k n s v s1 Hc Hrun) as Hin1.
    pose proof (steps_namespace k n s1 s2 Hsteps Hin1) as Hin2.
    destruct (declared_raises c' k n s2 Hc' Hin2) as [msg Hmsg]. eauto.
Qed.

(** ** Constants: declaration against definition *)

(** C8: [constant_decl] on a name that is already in the constant table
    raises [ValueError] and changes nothing.  [constant_def] on such a
    name raises nothing: it returns the existing object, whose value and
    attributes it has overwritten in place; the table is the same and no
    object has been allocated.  On a name that is not in the table
    [constant_def] allocates a new [Constant] and enters it. *)
Theorem constant_decl_rejects_constant_def_updates n s :
  (∀ v c, __constants s !! n = Some c →
     ∃ msg, constant_decl n v s = (Raise (ValueError msg), s))
  ∧ (∀ v attrs c, __constants s !! n = Some c →
     ∃ s', constant_def n v attrs s = (Return c, s')
       ∧ __constants s' = __constants s
       ∧ hConstant (heap s')
           = alter (set_value_attributes v attrs) c (hConstant (heap s))
       ∧ length (hConstant (heap s')) = length (hConstant (heap s))
       ∧ (∀ k, hConstant (heap s) !! c = Some k →
            hConstant (heap s') !! c = Some (mkConstant (c_name k) v attrs)))
  ∧ (∀ v attrs, __constants s !! n = None →
     ∃ s', constant_def n v attrs s = (Return (length (hConstant (heap s))), s')
       ∧ hConstant (heap s') = hConstant (heap s) ++ [mkConstant n v attrs]
       ∧ __constants s' = <[n := length (hConstant (heap s))]> (__constants s)).
Proof.
  split; [|split].
  - intros v c Hc. exec. simpl. rewrite Hc. eauto.
  - intros v attrs c Hc. exec. fields. rewrite Hc.
    eexists. split; [reflexivity|]. fields. repeat split.
    + apply length_alter.
    + intros k Hk. by rewrite list_lookup_alter_eq, Hk.
  - intros v attrs Hn. exec. simpl. rewrite Hn. simpl.
    eexists. split; [reflexivity|]. done.
Qed.

(** ** Default values *)


(** ** Final assembly *)


(** ** Register aliases *)



(** What a [register_alias] that returns has done. *)
Lemma register_alias_returns name size actual index attributes s r s' :
  register_alias name size actual index attributes s = (Return r, s') →
  ∃ reg sz p,
    __register_alias s !! name = None
    ∧ resolve_actual s actual = Some reg
    ∧ resolve_parent_mem s actual = Some p
    ∧ r = length (hRegisterAlias (heap s))
    ∧ hRegisterAlias (heap s')
        = hRegisterAlias (heap s) ++ [mkRegisterAlias name reg index attributes None sz]
    ∧ __register_alias s' = <[name := r]> (__register_alias s)
    ∧ hMemory (heap s')
        = alter (children_append (length (hMemory (heap s)))) p
            (hMemory (heap s) ++ [mkMemory name (normalize_index index) sz attributes []])
    ∧ __memories s' = __memories s
    ∧ __memory_aliases s' = <[name := length (hMemory (heap s))]> (__memory_aliases s).
Proof.
  intros Hrun. exec. unfold resolve_parent_mem in *. simpl in Hrun.
  repeat (case_match; simpl in *; simplify_eq).
  all: eexists _, _, _; repeat split; done.
Qed.

(** The object allocated for the alias's view keeps its name, range,
    size and attributes whatever node the append goes to. *)
Lemma lookup_new_view (h : list Memory) o p :
  ∃ mem, alter (children_append (length h)) p (h ++ [o]) !! length h = Some mem
    ∧ m_name mem = m_name o ∧ m_range mem = m_range o
    ∧ m_size mem = m_size o ∧ m_attributes mem = m_attributes o.
Proof.
  rewrite list_lookup_alter. case_decide; simplify_eq;
    rewrite (list_lookup_middle h [] o (length h)) by done;
    simpl; eexists; (split; [reflexivity|by repeat split]).
Qed.

(** C9 (as the code has it): when the index argument of [register_alias]
    is a single index [i], the [RegisterAlias] object is constructed
    with [i] as given, before the normalisation; only the paired memory
    view carries the degenerate [RangeSpec(i, i)]. *)
Theorem single_index_normalized_for_view_only name size actual i attributes s r s' :
  register_alias name size actual (IdxSingle i) attributes s = (Return r, s') →
  ∃ alias m view,
    hRegisterAlias (heap s') !! r = Some alias
    ∧ ra_index alias = IdxSingle i
    ∧ __memory_aliases s' !! name = Some m
    ∧ hMemory (heap s') !! m = Some view
    ∧ m_range view = mkRangeSpec [raw i; raw i].
Proof.
  intros (reg & sz & p & _ & _ & _ & -> & Hra & _ & Hmem & _ & Hma)%register_alias_returns.
  destruct (lookup_new_view (hMemory (heap s))
              (mkMemory name (normalize_index (IdxSingle i)) sz attributes []) p)
    as (view & Hview & _ & Hrange & _).
  eexists _, _, view. rewrite Hra, Hma, Hmem.
  split; [by rewrite list_lookup_middle|]. split; [done|].
  split; [by rewrite lookup_insert_eq|]. split; [exact Hview|exact Hrange].
Qed.


(** ** The shared memory table *)

Lemma get_constant_or_val_Lit z s : get_constant_or_val (Lit z) s = (Return (SInt z), s).
Proof. done. Qed.

Lemma get_constant_or_val_Name n c s :
  __constants s !! n = Some c → get_constant_or_val (Name n) s = (Return (SConst c), s).
Proof. intros Hc. unfold get_constant_or_val, bind, get, ret. by rewrite Hc. Qed.

Lemma resolves_returns s v : resolves s v → ∃ sz, get_constant_or_val v s = (Return sz, s).
Proof.
  destruct v as [z|n]; simpl.
  - eauto using get_constant_or_val_Lit.
  - intros [c Hc]. eauto using get_constant_or_val_Name.
Qed.

(** What a declaration with a memory view has done when it returns. *)
Lemma mem_decl_returns d s v s1 :
  run code_mask (mem_call d) s = (Return v, s1) →
  ∃ view,
    namespace (mem_kind d) s !! mem_name d = None
    ∧ hMemory (heap s1) = hMemory (heap s) ++ [view]
    ∧ m_name view = mem_name d
    ∧ m_attributes view = mem_attributes d
    ∧ m_children view = []
    ∧ mem_view_range_matches d view
    ∧ __memories s1 = <[mem_name d := length (hMemory (heap s))]> (__memories s)
    ∧ __constants s1 = __constants s
    ∧ (∀ k, k ≠ mem_kind d → namespace k s1 = namespace k s).
Proof.
  intros Hrun. destruct d; exec; simpl in Hrun;
    repeat (case_match; simpl in *; simplify_eq).
  all: eexists; repeat split; simpl; eauto.
  all: by intros [].
Qed.

(** It returns as soon as its name is new to its own table and its
    arguments resolve. *)
Lemma mem_decl_succeeds d s :
  namespace (mem_kind d) s !! mem_name d = None →
  mem_resolvable s d →
  ∃ v s1, run code_mask (mem_call d) s = (Return v, s1).
Proof.
  destruct d as [name size lb lp attribs|name size attributes|rng name size attributes];
    simpl; intros Hfresh Hres.
  - destruct Hres as (Hsize & Hlb & Hlp).
    destruct (resolves_returns s size Hsize) as [sz Hsz].
    destruct (resolves_returns s lb Hlb) as [b Hb].
    assert (∃ pw, match lp with
                  | Some p => get_constant_or_val p
                  | None => ret (SInt 1)
                  end s = (Return pw, s)) as [pw Hpw].
    { destruct lp as [p|]; simpl in Hlp; [by apply resolves_returns|by eexists]. }
    unfold returning, address_space, bind, get. rewrite Hfresh, Hsz, Hb, Hpw.
    simpl. eauto.
  - destruct (resolves_returns s size Hres) as [sz Hsz].
    unfold returning, register, bind, get. rewrite Hfresh, Hsz. simpl. eauto.
  - destruct (resolves_returns s size Hres) as [sz Hsz].
    unfold returning, register_file, bind, get. rewrite Hfresh, Hsz. simpl. eauto.
Qed.

Lemma mem_resolvable_constants s s' d :
  __constants s' = __constants s → mem_resolvable s d → mem_resolvable s' d.
Proof.
  intros Hc.
  assert (∀ v, resolves s v → resolves s' v) as Hv.
  { intros [z|n]; simpl; [done|]. by rewrite Hc. }
  destruct d as [name size lb lp attribs|name size attributes|rng name size attributes];
    simpl; [|by apply Hv..].
  intros (? & ? & Hlp). split; [by apply Hv|]. split; [by apply Hv|].
  destruct lp; simpl in *; [by apply Hv|done].
Qed.

(** C10: [address_space], [register] and [register_file] all enter
    their memory view in the one table [__memories], while each checks
    only its own namespace for duplicates.  So after a declaration of one
    kind has succeeded, a declaration of another kind with the same name
    (new to its own table, its arguments resolving) succeeds too; its
    view, a new object, replaces the earlier declaration's entry in
    [__memories], and every other entry of the table is as it was. *)
Theorem memory_table_is_shared_across_kinds d1 d2 s v1 s1 :
  mem_kind d1 ≠ mem_kind d2 →
  mem_name d1 = mem_name d2 →
  run code_mask (mem_call d1) s = (Return v1, s1) →
  namespace (mem_kind d2) s !! mem_name d2 = None →
  mem_resolvable s d2 →
  ∃ v2 s2 m1 m2 view,
    run code_mask (mem_call d2) s1 = (Return v2, s2)
    ∧ __memories s1 !! mem_name d1 = Some m1
    ∧ __memories s2 !! mem_name d1 = Some m2
    ∧ m1 ≠ m2
    ∧ hMemory (heap s2) !! m2 = Some view
    ∧ m_name view = mem_name d2
    ∧ m_attributes view = mem_attributes d2
    ∧ mem_view_range_matches d2 view
    ∧ __memories s2 = <[mem_name d2 := m2]> (__memories s1)
    ∧ (∀ n, n ≠ mem_name d2 → __memories s2 !! n = __memories s1 !! n).
Proof.
  intros Hkind Hname Hrun1 Hfresh Hres.
  destruct (mem_decl_returns d1 s v1 s1 Hrun1)
    as (view1 & _ & Hh1 & _ & _ & _ & _ & Hm1 & Hc1 & Hns1).
  assert (Hfresh1 : namespace (mem_kind d2) s1 !! mem_name d2 = None).
  { rewrite Hns1; [done|]. by intros Heq. }
  pose proof (mem_resolvable_constants s s1 d2 Hc1 Hres) as Hres1.
  destruct (mem_decl_succeeds d2 s1 Hfresh1 Hres1) as (v2 & s2 & Hrun2).
  destruct (mem_decl_returns d2 s1 v2 s2 Hrun2)
    as (view2 & _ & Hh2 & Hn2 & Ha2 & _ & Hr2 & Hm2 & _ & _).
  exists v2, s2, (length (hMemory (heap s))), (length (hMemory (heap s1))), view2.
  split; [done|]. split; [by rewrite Hm1, lookup_insert_eq|].
  split; [by rewrite Hm2, Hname, lookup_insert_eq|].
  split; [rewrite Hh1, length_app; simpl; lia|].
  split; [by rewrite Hh2, list_lookup_middle|].
  do 4 (split; [done|]).
  intros n Hn. by rewrite Hm2, lookup_insert_ne.
Qed.

(** ** Encoding collisions *)

(** [instruction] always returns: it allocates the instruction, warns
    when its key is taken, and files it under the key. *)
Lemma instruction_returns name attributes encoding disass operation s :
  ∃ s',
    instruction code_mask name attributes encoding disass operation s
      = (Return (length (hInstruction (heap s))), s')
    ∧ hInstruction (heap s')
        = hInstruction (heap s)
            ++ [Instruction_init code_mask name attributes encoding disass operation]
    ∧ __instructions s'
        = <[instr_id code_mask encoding := length (hInstruction (heap s))]> (__instructions s)
    ∧ stdout s'
        = stdout s ++ match __instructions s !! instr_id code_mask encoding with
                      | Some old => [warn_overwriting (instruction_name (heap s') old) name]
                      | None => []
                      end.
Proof.
  exec. unfold instr_id. simpl.
  destruct (__instructions s !! _) as [old|]; simpl;
    (eexists; split; [reflexivity|]; simpl; repeat split).
  by rewrite app_nil_r.
Qed.

(** C2: two [instruction] reductions whose encodings derive the same
    [(code, mask)] pair.  The second one returns (no error), prints
    exactly one warning, and replaces the entry of the pair in the
    instruction table, which is keyed by the pair and not by the name, by
    the new instruction; the table keeps its size, with one instruction
    under that key.  This holds when the second reduction follows the
    first directly (the warning then names the first instruction) and
    when other reductions come in between. *)
Theorem encoding_collision_overwrites
    name1 attrs1 enc1 dis1 op1 name2 attrs2 enc2 dis2 op2 s :
  code_mask enc1 = code_mask enc2 →
  ∃ i1 s1,
    instruction code_mask name1 attrs1 enc1 dis1 op1 s = (Return i1, s1)
    ∧ __instructions s1 !! instr_id code_mask enc1 = Some i1
    ∧ (∃ i2 s2,
         instruction code_mask name2 attrs2 enc2 dis2 op2 s1 = (Return i2, s2)
         ∧ stdout s2 = stdout s1 ++ [warn_overwriting name1 name2]
         ∧ __instructions s2 !! instr_id code_mask enc1 = Some i2
         ∧ i2 ≠ i1
         ∧ hInstruction (heap s2) !! i2
             = Some (Instruction_init code_mask name2 attrs2 enc2 dis2 op2)
         ∧ size (__instructions s2) = size (__instructions s1))
    ∧ (∀ s1', steps code_mask s1 s1' →
       ∃ old i2 s2,
         __instructions s1' !! instr_id code_mask enc1 = Some old
         ∧ instruction code_mask name2 attrs2 enc2 dis2 op2 s1' = (Return i2, s2)
         ∧ stdout s2
             = stdout s1' ++ [warn_overwriting (instruction_name (heap s2) old) name2]
         ∧ __instructions s2 = <[instr_id code_mask enc1 := i2]> (__instructions s1')
         ∧ hInstruction (heap s2) !! i2
             = Some (Instruction_init code_mask name2 attrs2 enc2 dis2 op2)
         ∧ size (__instructions s2) = size (__instructions s1')).
Proof.
  intros Hkey.
  assert (Hid : instr_id code_mask enc2 = instr_id code_mask enc1)
    by (unfold instr_id; by rewrite Hkey).
  destruct (instruction_returns name1 attrs1 enc1 dis1 op1 s)
    as (s1 & Hrun1 & Hh1 & Ht1 & _).
  assert (Hin1 : __instructions s1 !! instr_id code_mask enc1
                 = Some (length (hInstruction (heap s))))
    by (by rewrite Ht1, lookup_insert_eq).
  eexists _, s1. split; [exact Hrun1|]. split; [exact Hin1|]. split.
  - destruct (instruction_returns name2 attrs2 enc2 dis2 op2 s1)
      as (s2 & Hrun2 & Hh2 & Ht2 & Hout2).
    rewrite Hid, Hin1 in Hout2. rewrite Hid in Ht2.
    eexists _, s2. split; [exact Hrun2|]. split.
    { rewrite Hout2. do 3 f_equal. unfold instruction_name.
      rewrite Hh2, Hh1, lookup_app_l by (rewrite length_app; simpl; lia).
      by rewrite list_lookup_middle. }
    split; [by rewrite Ht2, lookup_insert_eq|].
    split; [rewrite Hh1, length_app; simpl; lia|].
    split; [by rewrite Hh2, list_lookup_middle|].
    rewrite Ht2. by apply map_size_insert_Some.
  - intros s1' Hsteps.
    assert (is_Some (__instructions s1' !! instr_id code_mask enc1)) as [old Hold].
    { apply elem_of_dom, (ext_instructions _ _ (steps_extends _ _ Hsteps)), elem_of_dom.
      by rewrite Hin1. }
    destruct (instruction_returns name2 attrs2 enc2 dis2 op2 s1')
      as (s2 & Hrun2 & Hh2 & Ht2 & Hout2).
    rewrite Hid, Hold in Hout2. rewrite Hid in Ht2.
    eexists old, _, s2. split; [exact Hold|]. split; [exact Hrun2|].
    split; [exact Hout2|]. split; [exact Ht2|].
    split; [by rewrite Hh2, list_lookup_middle|].
    rewrite Ht2. by apply map_size_insert_Some.
Qed.

Lemma run_all_steps cs s : steps code_mask s (run_all code_mask cs s).
Proof.
  revert s. induction cs as [|c cs IH]; intros s; simpl; [apply rtc_refl|].
  eapply rtc_l; [by exists c|apply IH].
Qed.

Lemma run_all_reachable cs : reachable code_mask (run_all code_mask cs init).
Proof. apply run_all_steps. Qed.

End Properties.

(** ** The scenarios of the specification *)

(** C1 at [X0]: a second [register] of [X0] is refused, directly and
    after another declaration. *)
Lemma duplicate_declaration_rejected_X0 :
  declares (call_register "X0" (Lit 8) ∅) = Some (KRegister, "X0")
  ∧ is_Some (namespace KRegister with_X0 !! "X0")
  ∧ (∃ msg, run spec_code_mask (call_register "X0" (Lit 8) ∅) with_X0
              = (Raise (ValueError msg), with_X0)
            ∧ error_kind (ValueError msg) = DuplicateDeclarationError)
  ∧ (∃ msg, run spec_code_mask (call_register "X0" (Lit 8) ∅)
              (run_all spec_code_mask [call_address_space "X0" (Lit 8) (Lit 32) None ∅] with_X0)
              = (Raise (ValueError msg),
                 run_all spec_code_mask [call_address_space "X0" (Lit 8) (Lit 32) None ∅] with_X0)
            ∧ error_kind (ValueError msg) = DuplicateDeclarationError).
Proof.
  assert (Hin : is_Some (namespace KRegister with_X0 !! "X0")) by (by eexists).
  destruct (duplicate_declaration_rejected spec_code_mask
              (call_register "X0" (Lit 8) ∅) KRegister "X0" with_X0 eq_refl) as [H1 _].
  destruct (duplicate_declaration_rejected spec_code_mask
              (call_register "X0" (Lit 32) ∅) KRegister "X0" init eq_refl) as [_ H2].
  split; [reflexivity|]. split; [exact Hin|]. split; [exact (H1 Hin)|].
  exact (H2 (TRegister 0) with_X0 _ (call_register "X0" (Lit 8) ∅) eq_refl
            (run_all_steps spec_code_mask _ with_X0) eq_refl).
Defined.

(** C2 at two encodings with opcode [0110011]: the second instruction
    takes the place of the first and one warning is printed. *)
Lemma encoding_collision_overwrites_opcode :
  spec_code_mask enc_one = spec_code_mask enc_two
  ∧ ∃ i1 s1,
      instruction spec_code_mask "ONE" ∅ enc_one "one" "op1" init = (Return i1, s1)
      ∧ __instructions s1 !! instr_id spec_code_mask enc_one = Some i1
      ∧ (∃ i2 s2,
           instruction spec_code_mask "TWO" ∅ enc_two "two" "op2" s1 = (Return i2, s2)
           ∧ stdout s2 = stdout s1 ++ [warn_overwriting "ONE" "TWO"]
           ∧ __instructions s2 !! instr_id spec_code_mask enc_one = Some i2
           ∧ i2 ≠ i1
           ∧ hInstruction (heap s2) !! i2
               = Some (Instruction_init spec_code_mask "TWO" ∅ enc_two "two" "op2")
           ∧ size (__instructions s2) = size (__instructions s1)).
Proof.
  assert (Hkey : spec_code_mask enc_one = spec_code_mask enc_two) by reflexivity.
  split; [exact Hkey|].
  destruct (encoding_collision_overwrites spec_code_mask
              "ONE" ∅ enc_one "one" "op1" "TWO" ∅ enc_two "two" "op2" init Hkey)
    as (i1 & s1 & H1 & H2 & H3 & _).
  exists i1, s1. split; [exact H1|]. split; [exact H2|exact H3].
Defined.




(** C8 at [WLEN]: declaring it again is refused, defining it again
    updates the object in place, defining the new [XLEN] allocates. *)
Lemma constant_decl_rejects_constant_def_updates_WLEN :
  (∃ msg, constant_decl "WLEN" (Some 64%Z) with_WLEN = (Raise (ValueError msg), with_WLEN))
  ∧ (∃ s', constant_def "WLEN" (Some 64%Z) ∅ with_WLEN = (Return 0, s')
       ∧ __constants s' = __constants with_WLEN
       ∧ length (hConstant (heap s')) = 1
       ∧ hConstant (heap s') !! 0 = Some (mkConstant "WLEN" (Some 64%Z) ∅))
  ∧ (∃ s', constant_def "XLEN" (Some 64%Z) ∅ with_WLEN = (Return 1, s')
       ∧ __constants s' = <["XLEN" := 1]> (__constants with_WLEN)).
Proof.
  destruct (constant_decl_rejects_constant_def_updates "WLEN" with_WLEN) as (Hdecl & Hdef & _).
  destruct (constant_decl_rejects_constant_def_updates "XLEN" with_WLEN) as (_ & _ & Hnew).
  split; [exact (Hdecl (Some 64%Z) 0 eq_refl)|]. split.
  - destruct (Hdef (Some 64%Z) ∅ 0 eq_refl) as (s' & Hrun & Htab & _ & Hlen & Hobj).
    exists s'. split; [exact Hrun|]. split; [exact Htab|]. split; [exact Hlen|].
    exact (Hobj (mkConstant "WLEN" (Some 32%Z) ∅) eq_refl).
  - destruct (Hnew (Some 64%Z) ∅ eq_refl) as (s' & Hrun & _ & Htab).
    exists s'. split; [exact Hrun|exact Htab].
Defined.

(** C9, the claim as stated fails: after [X0B] is declared over [X0] at
    the single index 3, the [RegisterAlias] object holds the index 3
    itself and not [RangeSpec(3, 3)]. *)
Lemma alias_object_keeps_single_index :
  register_alias "X0B" (Lit 1) "X0" (IdxSingle (Lit 3)) ∅ with_X0 = (Return 0, with_X0B)
  ∧ ra_index <$> hRegisterAlias (heap with_X0B) !! 0 = Some (IdxSingle (Lit 3))
  ∧ ra_index <$> hRegisterAlias (heap with_X0B) !! 0
      ≠ Some (IdxRange (mkRangeSpec [SInt 3; SInt 3])).
Proof.
  split; [vm_compute; reflexivity|]. split; [vm_compute; reflexivity|].
  vm_compute. discriminate.
Qed.

(** C9 (as the code has it) at [X0B]. *)
Lemma single_index_normalized_for_view_only_X0B :
  register_alias "X0B" (Lit 1) "X0" (IdxSingle (Lit 3)) ∅ with_X0 = (Return 0, with_X0B)
  ∧ ∃ alias m view,
      hRegisterAlias (heap with_X0B) !! 0 = Some alias
      ∧ ra_index alias = IdxSingle (Lit 3)
      ∧ __memory_aliases with_X0B !! "X0B" = Some m
      ∧ hMemory (heap with_X0B) !! m = Some view
      ∧ m_range view = mkRangeSpec [SInt 3; SInt 3].
Proof.
  assert (Hrun : register_alias "X0B" (Lit 1) "X0" (IdxSingle (Lit 3)) ∅ with_X0
                 = (Return 0, with_X0B)) by (vm_compute; reflexivity).
  split; [exact Hrun|].
  exact (single_index_normalized_for_view_only
           "X0B" (Lit 1) "X0" (Lit 3) ∅ with_X0 0 with_X0B Hrun).
Defined.

(** C10 at [X0]: after the register [X0], an address space [X0] is
    accepted and its view replaces the register's in [__memories]. *)
Lemma memory_table_is_shared_across_kinds_X0 :
  mem_kind (decl_register "X0" (Lit 32) ∅)
    ≠ mem_kind (decl_address_space "X0" (Lit 8) (Lit 32) None ∅)
  ∧ run spec_code_mask (mem_call (decl_register "X0" (Lit 32) ∅)) init
      = (Return (TRegister 0), with_X0)
  ∧ ∃ v2 s2 m1 m2 view,
      run spec_code_mask (mem_call (decl_address_space "X0" (Lit 8) (Lit 32) None ∅)) with_X0
        = (Return v2, s2)
      ∧ __memories with_X0 !! "X0" = Some m1
      ∧ __memories s2 !! "X0" = Some m2
      ∧ m1 ≠ m2
      ∧ hMemory (heap s2) !! m2 = Some view
      ∧ m_name view = "X0"
      ∧ m_attributes view = ∅
      ∧ (∃ base power, m_range view = mkRangeSpec [base; SInt 0; power])
      ∧ __memories s2 = <["X0" := m2]> (__memories with_X0)
      ∧ (∀ n, n ≠ "X0" → __memories s2 !! n = __memories with_X0 !! n).
Proof.
  assert (Hkind : mem_kind (decl_register "X0" (Lit 32) ∅)
                  ≠ mem_kind (decl_address_space "X0" (Lit 8) (Lit 32) None ∅))
    by discriminate.
  split; [exact Hkind|]. split; [reflexivity|].
  exact (memory_table_is_shared_across_kinds spec_code_mask
           (decl_register "X0" (Lit 32) ∅)
           (decl_address_space "X0" (Lit 8) (Lit 32) None ∅)
           init (TRegister 0) with_X0 Hkind eq_refl eq_refl eq_refl
           (conj I (conj I I))).
Defined.

(** ** Invariants of the pass *)

Section Invariants.

Variable code_mask : list EncElem → Z * Z.

Lemma keyed_insert_new {K A} `{Countable K} (key_of : A → K) t (h : list A) o k :
  keyed key_of t h → key_of o = k → keyed key_of (<[k := length h]> t) (h ++ [o]).
Proof.
  intros Ht Hk k' l. rewrite lookup_insert. case_decide as Hd.
  - intros [= <-]. exists o. split; [by apply list_lookup_middle|congruence].
  - intros (o' & Ho' & Hk')%Ht. exists o'. split; [|done].
    by apply lookup_app_l_Some.
Qed.

Lemma keyed_app {K A} `{Countable K} (key_of : A → K) t (h : list A) o :
  keyed key_of t h → keyed key_of t (h ++ [o]).
Proof.
  intros Ht k l (o' & Ho' & Hk')%Ht. exists o'. split; [|done].
  by apply lookup_app_l_Some.
Qed.

Lemma keyed_alter {K A} `{Countable K} (key_of : A → K) t (h : list A) f i :
  (∀ o, key_of (f o) = key_of o) → keyed key_of t h → keyed key_of t (alter f i h).
Proof.
  intros Hf Ht k l (o & Ho & Hk)%Ht. rewrite list_lookup_alter. case_decide.
  - subst. rewrite Ho. simpl. eexists. split; [done|]. by rewrite Hf.
  - eauto.
Qed.

Lemma keyed_foldl_alter {K A} `{Countable K} (key_of : A → K) t (h : list A) f ls :
  (∀ o, key_of (f o) = key_of o) →
  keyed key_of t h → keyed key_of t (foldl (λ h i, alter f i h) h ls).
Proof.
  intros Hf. revert h. induction ls as [|i ls IH]; intros h Ht; simpl; [done|].
  by apply IH, keyed_alter.
Qed.

Lemma keyed_rebind {K A} `{Countable K} (key_of : A → K) t (h : list A) k l o :
  keyed key_of t h → h !! l = Some o → key_of o = k → keyed key_of (<[k := l]> t) h.
Proof.
  intros Ht Hl Hk k' l'. rewrite lookup_insert. case_decide.
  - intros [= <-]. exists o. split; [done|congruence].
  - apply Ht.
Qed.

Lemma consistent_init : consistent init.
Proof. split; intros k l; simpl; by rewrite lookup_empty. Qed.

Ltac keyed_step :=
  first
    [ eassumption
    | apply keyed_insert_new; [|reflexivity]
    | apply keyed_app
    | apply keyed_foldl_alter; [intros []; reflexivity|]
    | apply keyed_alter; [intros []; reflexivity|] ].

Lemma run_consistent c s : consistent s → consistent (run code_mask c s).2.
Proof.
  intros [H1 H2 H3 H4 H5 H6 H7 H8 H9]. destruct c.
  all: exec; unfold resolve_parent_mem in *; simpl;
       repeat (case_match; simpl in *; simplify_eq); simpl.
  all: split; simpl; repeat keyed_step.
Qed.

Lemma steps_consistent s s' : steps code_mask s s' → consistent s → consistent s'.
Proof.
  induction 1 as [|s1 s2 s3 [c <-] _ IH]; [done|].
  intros Hs. by apply IH, run_consistent.
Qed.

Lemma reachable_consistent s : reachable code_mask s → consistent s.
Proof. intros H. exact (steps_consistent _ _ H consistent_init). Qed.

Lemma views_paired_init : views_paired init.
Proof. split; simpl; set_solver. Qed.

(** Under [views_paired] the second [assert] of [register_alias] cannot
    fail: an actual register that resolves has a memory node. *)
Lemma parent_absurd s actual reg :
  views_paired s →
  resolve_actual s actual = Some reg →
  py_or (__memories s !! actual) (__memory_aliases s !! actual) = None →
  False.
Proof.
  intros [Hm Ha] Hreg Hnone.
  assert (actual ∈ dom (__memories s) ∨ actual ∈ dom (__memory_aliases s)) as Hin.
  { rewrite Hm, Ha. unfold resolve_actual, py_or in Hreg.
    destruct (__register_file s !! actual) eqn:Hf;
      [left; apply elem_of_union_r, elem_of_dom; eauto|].
    destruct (__registers s !! actual) eqn:Hr;
      [left; apply elem_of_union_l, elem_of_union_r, elem_of_dom; eauto|].
    destruct (__register_alias s !! actual) eqn:Hal; [|done].
    right. apply elem_of_dom. eauto. }
  unfold py_or in Hnone.
  destruct (__memories s !! actual) eqn:Hm'; [done|].
  destruct Hin as [[x Hx]%elem_of_dom|[x Hx]%elem_of_dom]; congruence.
Qed.

Lemma run_views_paired c s : views_paired s → views_paired (run code_mask c s).2.
Proof.
  intros Hvp. pose proof Hvp as [Hm Ha]. destruct c.
  all: exec; unfold resolve_parent_mem in *; simpl;
       repeat (case_match; simpl in *; simplify_eq); simpl.
  all: try exact Hvp.
  all: try (exfalso; eapply parent_absurd; eassumption).
  all: split; simpl; rewrite ?dom_insert_L, ?Hm, ?Ha; try done.
  all: apply set_eq; intros x; rewrite ?elem_of_union, ?elem_of_singleton; tauto.
Qed.

Lemma steps_views_paired s s' : steps code_mask s s' → views_paired s → views_paired s'.
Proof.
  induction 1 as [|s1 s2 s3 [c <-] _ IH]; [done|].
  intros Hs. by apply IH, run_views_paired.
Qed.

Lemma reachable_views_paired s : reachable code_mask s → views_paired s.
Proof. intros H. exact (steps_views_paired _ _ H views_paired_init). Qed.

(** X1: in a state the builder can reach, a reduction that raises an
    exception has changed nothing: every check and every lookup that can
    fail comes before the handler's first mutation, and the one
    [assert] that comes after a mutation (the parent memory node in
    [register_alias]) cannot fail there. *)
Theorem failed_reduction_changes_nothing c s e s' :
  reachable code_mask s →
  run code_mask c s = (Raise e, s') →
  s' = s.
Proof.
  intros Hvp%reachable_views_paired Hrun. destruct c.
  all: exec; unfold resolve_parent_mem in *; simpl in Hrun;
       repeat (case_match; simpl in *; simplify_eq); try done.
  all: exfalso; eapply parent_absurd; eassumption.
Qed.

(** *** Objects are kept *)

Lemma evolves_refl {A} (R : A → A → Prop) `{!Reflexive R} (h : list A) : evolves R h h.
Proof. intros l o Ho. by exists o. Qed.

Lemma evolves_trans {A} (R : A → A → Prop) `{!Transitive R} (h1 h2 h3 : list A) :
  evolves R h1 h2 → evolves R h2 h3 → evolves R h1 h3.
Proof.
  intros H12 H23 l o (o2 & Ho2 & Hr2)%H12. destruct (H23 l o2 Ho2) as (o3 & Ho3 & Hr3).
  exists o3. split; [done|]. by etrans.
Qed.

Lemma evolves_app {A} (R : A → A → Prop) (h h1 : list A) o :
  evolves R h h1 → evolves R h (h1 ++ [o]).
Proof.
  intros H l x (x' & Hx' & Hr)%H. exists x'. split; [|done]. by apply lookup_app_l_Some.
Qed.

Lemma evolves_alter {A} (R : A → A → Prop) `{!Transitive R} (h h1 : list A) f i :
  (∀ o, R o (f o)) → evolves R h h1 → evolves R h (alter f i h1).
Proof.
  intros Hf H l x (x' & Hx' & Hr)%H. rewrite list_lookup_alter. case_decide.
  - subst. rewrite Hx'. simpl. eexists. split; [done|]. by etrans.
  - eauto.
Qed.

Lemma evolves_foldl_alter {A} (R : A → A → Prop) `{!Transitive R} (h h1 : list A) f ls :
  (∀ o, R o (f o)) → evolves R h h1 → evolves R h (foldl (λ h i, alter f i h) h1 ls).
Proof.
  intros Hf. revert h1. induction ls as [|i ls IH]; intros h1 H; simpl; [done|].
  by apply IH, evolves_alter.
Qed.

Local Instance constant_kept_preorder : PreOrder constant_kept.
Proof. split; [done|]. unfold constant_kept. intros x y z. congruence. Qed.
Local Instance register_kept_preorder : PreOrder register_kept.
Proof.
  split; [done|]. unfold register_kept. intros x y z (?&?&?) (?&?&?).
  repeat split; congruence.
Qed.
Local Instance alias_kept_preorder : PreOrder alias_kept.
Proof.
  split; [done|]. unfold alias_kept. intros x y z (?&?&?&?&?) (?&?&?&?&?).
  repeat split; congruence.
Qed.
Local Instance memory_kept_preorder : PreOrder memory_kept.
Proof.
  split; [done|]. unfold memory_kept. intros x y z (?&?&?&?&?) (?&?&?&?&?).
  repeat split; try congruence. by etrans.
Qed.
Local Instance instruction_kept_preorder : PreOrder instruction_kept.
Proof.
  split; [done|]. unfold instruction_kept. intros x y z (?&?&?&?&?&?&?) (?&?&?&?&?&?&?).
  repeat split; congruence.
Qed.
Local Instance function_kept_preorder : PreOrder function_kept.
Proof.
  split; [done|]. unfold function_kept. intros x y z (?&?&?&?&?) (?&?&?&?&?).
  repeat split; congruence.
Qed.

Lemma memory_kept_append c o : memory_kept o (children_append c o).
Proof. repeat split. simpl. by apply prefix_app_r. Qed.

Lemma heap_evolves_refl h : heap_evolves h h.
Proof. split; by apply evolves_refl. Qed.

Lemma heap_evolves_trans h1 h2 h3 :
  heap_evolves h1 h2 → heap_evolves h2 h3 → heap_evolves h1 h3.
Proof. intros [] []. split; (eapply evolves_trans; [apply _|eassumption..]). Qed.

Ltac evolves_step :=
  first
    [ apply evolves_refl; apply _
    | apply evolves_app
    | apply evolves_foldl_alter; [apply _|by intros []|]
    | apply evolves_alter; [apply _|first [by intros []|apply memory_kept_append]|] ].

Lemma run_heap_evolves c s : heap_evolves (heap s) (heap (run code_mask c s).2).
Proof.
  destruct c.
  all: exec; unfold resolve_parent_mem in *; simpl;
       repeat (case_match; simpl in *; simplify_eq); simpl.
  all: try apply heap_evolves_refl.
  all: split; simpl; repeat evolves_step.
Qed.

Lemma steps_heap_evolves s s' : steps code_mask s s' → heap_evolves (heap s) (heap s').
Proof.
  induction 1 as [|s1 s2 s3 [c <-] _ IH]; [apply heap_evolves_refl|].
  eapply heap_evolves_trans; [apply run_heap_evolves|exact IH].
Qed.

(** X2: no reduction deletes an object or changes what identifies it.
    Over any number of reductions an address space and a register file
    stay exactly as built; a constant keeps its name; a register and an
    alias keep everything but the default; a memory view keeps its name,
    range, size and attributes, and its child list only grows at the
    end; an instruction and a function keep everything but
    [ext_name]. *)
Theorem objects_are_kept s s' :
  steps code_mask s s' → heap_evolves (heap s) (heap s').
Proof. apply steps_heap_evolves. Qed.

(** *** Declared names are permanent *)

Lemma run_namespace_kept c s k n l :
  namespace k s !! n = Some l → namespace k (run code_mask c s).2 !! n = Some l.
Proof.
  intros Hl. destruct c, k.
  all: exec; unfold resolve_parent_mem in *; simpl in *;
       repeat (case_match; simpl in *; simplify_eq); simpl; try done.
  all: rewrite lookup_insert_ne; [done|congruence].
Qed.

(** X3: a name declared in one of the five namespaces (constants,
    address spaces, registers, register files, aliases) is bound to the
    same object for the rest of the pass: no reduction removes the entry
    and none rebinds it. *)
Theorem declared_name_is_permanent s s' k n l :
  steps code_mask s s' →
  namespace k s !! n = Some l →
  namespace k s' !! n = Some l.
Proof.
  induction 1 as [|s1 s2 s3 [c <-] _ IH]; [done|].
  intros Hl. by apply IH, run_namespace_kept.
Qed.

(** *** Tables and objects *)

(** X4: in every state the builder can reach, each of the nine tables
    agrees with the object store: an entry refers to an allocated object
    of the table's class, and that object carries the key it is filed
    under (its name; for an instruction its [(code, mask)] pair). *)
Theorem tables_refer_to_their_objects s : reachable code_mask s → consistent s.
Proof. apply reachable_consistent. Qed.

(** X5: in every state the builder can reach, the names in [__memories]
    are exactly the declared address spaces, registers and register
    files, and the names in [__memory_aliases] are exactly the declared
    aliases. *)
Theorem memory_tables_mirror_declarations s : reachable code_mask s → views_paired s.
Proof. apply reachable_views_paired. Qed.

(** *** Alias chains *)

Lemma resolve_actual_allocated s actual reg :
  consistent s →
  resolve_actual s actual = Some reg →
  match reg with
  | RFile f => is_Some (hRegisterFile (heap s) !! f)
  | RReg r => is_Some (hRegister (heap s) !! r)
  | RAlias l => l < length (hRegisterAlias (heap s))
  end.
Proof.
  intros Hc. unfold resolve_actual, py_or.
  destruct (__register_file s !! actual) as [f|] eqn:Hf; simpl.
  { intros [= <-]. destruct (con_register_file s Hc _ _ Hf) as (o & Ho & _). eauto. }
  destruct (__registers s !! actual) as [r|] eqn:Hr; simpl.
  { intros [= <-]. destruct (con_registers s Hc _ _ Hr) as (o & Ho & _). eauto. }
  destruct (__register_alias s !! actual) as [l|] eqn:Hl; simpl; [|done].
  intros [= <-]. destruct (con_register_alias s Hc _ _ Hl) as (o & Ho & _).
  by eapply lookup_lt_Some.
Qed.

(** The alias objects after a reduction: the same number as before, or
    one more, bound to what [resolve_actual] found. *)
Lemma run_alias_heap c s :
  length (hRegisterAlias (heap (run code_mask c s).2)) = length (hRegisterAlias (heap s))
  ∨ ∃ a actual,
      hRegisterAlias (heap (run code_mask c s).2) = hRegisterAlias (heap s) ++ [a]
      ∧ resolve_actual s actual = Some (ra_actual a).
Proof.
  destruct c.
  all: exec; unfold resolve_parent_mem in *; simpl;
       repeat (case_match; simpl in *; simplify_eq); simpl.
  all: try (left; rewrite ?length_alter; reflexivity).
  all: right; eexists _, _; split; [reflexivity|]; simpl; eassumption.
Qed.

Lemma run_alias_refs c s :
  consistent s → alias_refs_earlier s → alias_refs_earlier (run code_mask c s).2.
Proof.
  intros Hc Hrefs l a' Ha'.
  pose proof (run_heap_evolves c s) as Hev.
  assert (Hold : l < length (hRegisterAlias (heap s)) →
            match ra_actual a' with
            | RFile f => is_Some (hRegisterFile (heap (run code_mask c s).2) !! f)
            | RReg r => is_Some (hRegister (heap (run code_mask c s).2) !! r)
            | RAlias l' => l' < l
            end).
  { intros Hlt. destruct (lookup_lt_is_Some_2 _ _ Hlt) as [a Ha].
    destruct (ev_register_aliases _ _ Hev l a Ha) as (a'' & Ha'' & _ & Hact & _).
    assert (a'' = a') as -> by congruence. rewrite Hact.
    specialize (Hrefs l a Ha). destruct (ra_actual a) as [f|r|l0]; [| |done].
    - destruct Hrefs as [o Ho].
      destruct (ev_register_files _ _ Hev f o Ho) as (o' & Ho' & _). eauto.
    - destruct Hrefs as [o Ho].
      destruct (ev_registers _ _ Hev r o Ho) as (o' & Ho' & _). eauto. }
  destruct (run_alias_heap c s) as [Hlen|(a & actual & Hheap & Hres)].
  - apply Hold. rewrite <-Hlen. by eapply lookup_lt_Some.
  - destruct (decide (l < length (hRegisterAlias (heap s)))) as [Hlt|Hge];
      [by apply Hold|].
    rewrite Hheap in Ha'. rewrite lookup_app_r in Ha' by lia.
    destruct (l - length (hRegisterAlias (heap s))) as [|k] eqn:Hk; simpl in Ha'; [|done].
    simplify_eq.
    pose proof (resolve_actual_allocated s actual _ Hc Hres) as Hal.
    destruct (ra_actual a') as [f|r|l0]; [| |lia].
    + destruct Hal as [o Ho].
      destruct (ev_register_files _ _ Hev f o Ho) as (o' & Ho' & _). eauto.
    + destruct Hal as [o Ho].
      destruct (ev_registers _ _ Hev r o Ho) as (o' & Ho' & _). eauto.
Qed.

Lemma steps_alias_refs s s' :
  steps code_mask s s' → consistent s → alias_refs_earlier s → alias_refs_earlier s'.
Proof.
  induction 1 as [|s1 s2 s3 [c <-] _ IH]; [done|].
  intros Hc Hr. apply IH; [by apply run_consistent|by apply run_alias_refs].
Qed.

(** X6: in every state the builder can reach, an alias refers to an
    allocated register file or register, or to an alias that was built
    before it.  An alias is therefore never its own target, directly or
    through other aliases, and following [actual] from any alias ends at
    a register or a register file. *)
Theorem alias_refers_to_earlier_object s :
  reachable code_mask s → alias_refs_earlier s.
Proof.
  intros H. apply (steps_alias_refs _ _ H consistent_init).
  intros l a. simpl. by rewrite lookup_nil.
Qed.

(** *** The forest of memory views *)

(** The memory objects after [register_alias]: the new view at the end,
    the parent with one more child, every other node as it was. *)
Lemma lookup_alias_heap (h : list Memory) o p q m :
  p < length h →
  alter (children_append (length h)) p (h ++ [o]) !! q = Some m →
  (q = length h ∧ m = o)
  ∨ ∃ m0, h !! q = Some m0
      ∧ ((q ≠ p ∧ m = m0) ∨ (q = p ∧ m = children_append (length h) m0)).
Proof.
  intros Hp Hq. destruct (decide (q < length h)) as [Hlt|Hge].
  - right. destruct (lookup_lt_is_Some_2 _ _ Hlt) as [m0 Hm0]. exists m0.
    split; [done|].
    assert (Hq' : (h ++ [o]) !! q = Some m0) by (by apply lookup_app_l_Some).
    destruct (decide (p = q)) as [->|Hne].
    + rewrite list_lookup_alter_eq, Hq' in Hq. simpl in Hq. simplify_eq. by right.
    + rewrite list_lookup_alter_ne, Hq' in Hq by done. simplify_eq. left. by split.
  - left. rewrite list_lookup_alter_ne in Hq by lia.
    rewrite lookup_app_r in Hq by lia.
    destruct (q - length h) as [|k] eqn:Hk; simpl in Hq; [|done].
    simplify_eq. split; [lia|done].
Qed.

Lemma alias_heap_children (h : list Memory) o p q m c :
  p < length h → m_children o = [] →
  alter (children_append (length h)) p (h ++ [o]) !! q = Some m →
  c ∈ m_children m →
  ∃ m0, h !! q = Some m0 ∧ (c ∈ m_children m0 ∨ (q = p ∧ c = length h)).
Proof.
  intros Hp Ho Hq Hc.
  destruct (lookup_alias_heap h o p q m Hp Hq)
    as [[_ ->]|(m0 & Hm0 & [[_ ->]|[-> ->]])].
  - rewrite Ho in Hc. by apply elem_of_nil in Hc.
  - exists m0. split; [done|]. by left.
  - exists m0. split; [done|]. simpl in Hc.
    apply elem_of_app in Hc as [Hc|Hc%list_elem_of_singleton]; [by left|by right].
Qed.

Lemma forest_init : forest init.
Proof. split; simpl; intros *; by rewrite lookup_nil. Qed.

Lemma forest_frame s s' :
  forest s → hMemory (heap s') = hMemory (heap s) → forest s'.
Proof. intros [H1 H2 H3] Hh. split; rewrite Hh; eauto. Qed.

Lemma lookup_snoc_childless (h : list Memory) o q m c :
  m_children o = [] → (h ++ [o]) !! q = Some m → c ∈ m_children m →
  h !! q = Some m.
Proof.
  intros Ho Hq Hc. destruct (decide (q < length h)) as [Hlt|Hge].
  - by rewrite lookup_app_l in Hq.
  - rewrite lookup_app_r in Hq by lia.
    destruct (q - length h) as [|k]; simpl in Hq; [|done].
    simplify_eq. rewrite Ho in Hc. by apply elem_of_nil in Hc.
Qed.

Lemma forest_new_memory s s' o :
  forest s →
  hMemory (heap s') = hMemory (heap s) ++ [o] →
  m_children o = [] →
  forest s'.
Proof.
  intros [H1 H2 H3] Hh Ho. split; rewrite Hh.
  - intros p m c Hp Hc. eapply H1; [|done]. by eapply lookup_snoc_childless.
  - intros p m Hp. destruct (m_children m) as [|c cs] eqn:Hcs; [constructor|].
    rewrite <-Hcs. eapply H2, (lookup_snoc_childless _ o p m c); [done..|].
    rewrite Hcs. by left.
  - intros p1 p2 m1 m2 c Hp1 Hp2 Hc1 Hc2.
    eapply (H3 p1 p2 m1 m2 c); [by eapply lookup_snoc_childless..|done|done].
Qed.

Lemma forest_new_alias s s' o p :
  wf s → forest s →
  hMemory (heap s')
    = alter (children_append (length (hMemory (heap s)))) p (hMemory (heap s) ++ [o]) →
  p < length (hMemory (heap s)) →
  m_children o = [] →
  forest s'.
Proof.
  intros Hwf [H1 H2 H3] Hh Hp Ho.
  assert (Hbound : ∀ q m c, hMemory (heap s) !! q = Some m → c ∈ m_children m →
            c < length (hMemory (heap s))).
  { intros q m c Hq Hc. destruct (wf_children s Hwf q m c Hq Hc) as (m' & Hm' & _).
    by eapply lookup_lt_Some. }
  split; rewrite Hh.
  - intros q m c Hq Hc.
    destruct (alias_heap_children _ o p q m c Hp Ho Hq Hc) as (m0 & Hm0 & [Hc0|[Hqp Hnew]]).
    + by eapply H1.
    + lia.
  - intros q m Hq.
    destruct (lookup_alias_heap _ o p q m Hp Hq)
      as [[_ ->]|(m0 & Hm0 & [[_ ->]|[-> ->]])].
    + rewrite Ho. constructor.
    + by eapply H2.
    + simpl. apply NoDup_app. split; [by eapply H2|]. split; [|apply NoDup_singleton].
      intros c Hc Hc'%list_elem_of_singleton. subst c.
      pose proof (Hbound _ _ _ Hm0 Hc). lia.
  - intros q1 q2 m1 m2 c Hq1 Hq2 Hc1 Hc2.
    destruct (alias_heap_children _ o p q1 m1 c Hp Ho Hq1 Hc1)
      as (m01 & Hm01 & [Hc01|[Hq1p Hnew1]]);
    destruct (alias_heap_children _ o p q2 m2 c Hp Ho Hq2 Hc2)
      as (m02 & Hm02 & [Hc02|[Hq2p Hnew2]]).
    + by eapply (H3 q1 q2 m01 m02 c).
    + pose proof (Hbound _ _ _ Hm01 Hc01). lia.
    + pose proof (Hbound _ _ _ Hm02 Hc02). lia.
    + congruence.
Qed.

Lemma run_forest c s : wf s → forest s → forest (run code_mask c s).2.
Proof.
  intros Hwf Hfo. destruct c.
  all: exec; unfold resolve_parent_mem in *; simpl;
       repeat (case_match; simpl in *; simplify_eq); simpl.
  all: try first [exact Hfo | by eapply forest_frame; [exact Hfo|]].
  all: try (eapply forest_new_memory; [exact Hfo|simpl; reflexivity|done]).
  all: eapply forest_new_alias;
         [exact Hwf|exact Hfo|simpl; reflexivity
         |eapply wf_parent; [exact Hwf|eassumption]|done].
Qed.

Lemma steps_forest s s' : steps code_mask s s' → wf s → forest s → forest s'.
Proof.
  induction 1 as [|s1 s2 s3 [c <-] _ IH]; [done|].
  intros Hwf Hfo. apply IH; [by apply run_wf|by apply run_forest].
Qed.

(** X7: in every state the builder can reach, the memory views form a
    forest: every child was allocated after its parent (so no view is
    its own ancestor), no child list names a view twice, and no view is
    a child of two nodes. *)
Theorem memory_views_form_a_forest s : reachable code_mask s → forest s.
Proof. intros H. exact (steps_forest _ _ H wf_init forest_init). Qed.

(** *** Counters and bit-field groups *)

Lemma length_foldl_alter {A} (f : A → A) ls (h : list A) :
  length (foldl (λ h i, alter f i h) h ls) = length h.
Proof.
  revert h. induction ls as [|i ls IH]; intros h; simpl; [done|].
  by rewrite IH, length_alter.
Qed.

Lemma run_counters c s : counters s → counters (run code_mask c s).2.
Proof.
  intros [Hi Hf]. destruct c.
  all: exec; unfold resolve_parent_mem in *; simpl;
       repeat (case_match; simpl in *; simplify_eq); simpl.
  all: split; simpl; rewrite ?length_app, ?length_foldl_alter; simpl; lia.
Qed.

(** X8: in every state the builder can reach, [__current_instr_idx] is
    the number of instructions built so far and [__current_fn_idx] the
    number of functions built so far: each is advanced exactly once per
    [instruction] (a collision included) or per successful
    [function_def], and by nothing else. *)
Theorem indices_count_objects s : reachable code_mask s → counters s.
Proof.
  intros H. assert (counters init) as H0 by done. revert H0.
  unfold reachable in H. induction H as [|s1 s2 s3 [c <-] _ IH]; [done|].
  intros Hc. by apply IH, run_counters.
Qed.

Lemma run_fields_fresh c s : fields_fresh s → fields_fresh (run code_mask c s).2.
Proof.
  intros Hf. destruct c.
  all: exec; unfold resolve_parent_mem in *; simpl;
       repeat (case_match; simpl in *; simplify_eq); simpl.
  all: try exact Hf.
  all: intros idx Hidx; simpl in *; rewrite ?lookup_insert_ne by lia; apply Hf; lia.
Qed.

Lemma reachable_fields_fresh s : reachable code_mask s → fields_fresh s.
Proof.
  intros H. assert (fields_fresh init) as H0 by (by intros idx _).
  revert H0. unfold reachable in H.
  induction H as [|s1 s2 s3 [c <-] _ IH]; [done|].
  intros Hc. by apply IH, run_fields_fresh.
Qed.

(** X9: in a state the builder can reach, [instruction] advances the
    index by one, and the first [bit_field] reduced after it starts a
    group of its own: under the new index the fields are just this one
    field under its name, whatever fields of that name earlier
    instructions had, and the groups of all other indices are as they
    were before the instruction. *)
Theorem bit_field_after_instruction_starts_a_group
    iname iattrs ienc idis iop fname frange fdt s :
  reachable code_mask s →
  ∃ i s1 b s2,
    instruction code_mask iname iattrs ienc idis iop s = (Return i, s1)
    ∧ __current_instr_idx s1 = S (__current_instr_idx s)
    ∧ bit_field fname frange fdt s1 = (Return b, s2)
    ∧ b = mkBitField fname frange (default DT_U fdt)
    ∧ __fields s2 !! __current_instr_idx s1 = Some {[fname := [b]]}
    ∧ ∀ idx, idx ≠ __current_instr_idx s1 → __fields s2 !! idx = __fields s !! idx.
Proof.
  intros Hf%reachable_fields_fresh.
  assert (Hnone : __fields s !! S (__current_instr_idx s) = None) by (apply Hf; lia).
  assert (∃ i s1, instruction code_mask iname iattrs ienc idis iop s = (Return i, s1)
            ∧ __current_instr_idx s1 = S (__current_instr_idx s)
            ∧ __fields s1 = __fields s) as (i & s1 & Hrun & Hidx & Hfl).
  { exec. simpl. destruct (__instructions s !! _); simpl; by eexists _, _. }
  exists i, s1. eexists _, _. split; [exact Hrun|]. split; [exact Hidx|].
  unfold bit_field, bind, get, modify, ret. simpl.
  split; [reflexivity|]. split; [reflexivity|]. simpl.
  rewrite Hidx, Hfl, Hnone. simpl. split.
  - by rewrite lookup_insert_eq, insert_empty.
  - intros idx Hne. by rewrite lookup_insert_ne.
Qed.

(** *** Contributing instruction sets *)

Lemma run_read_types_ok c s : read_types_ok s → read_types_ok (run code_mask c s).2.
Proof.
  intros Hrt. destruct c.
  all: try (exec; unfold resolve_parent_mem in *; simpl;
            repeat (case_match; simpl in *; simplify_eq); simpl; exact Hrt).
  destruct Hrt as [Hnd Hin]. exec. simpl. split; simpl.
  - case_decide as Hd; [done|]. apply NoDup_app. split; [done|].
    split; [|apply NoDup_singleton].
    intros x Hx Hx'%list_elem_of_singleton. by subst.
  - intros n. rewrite lookup_insert_is_Some.
    assert (n ∈ (if decide (name ∈ __read_types s)
                 then __read_types s else __read_types s ++ [name])
            ↔ n = name ∨ n ∈ __read_types s) as ->.
    { case_decide as Hd.
      - split; [by right|]. by intros [->|?].
      - rewrite elem_of_app, list_elem_of_singleton. tauto. }
    rewrite Hin. destruct (decide (name = n)) as [->|Hne].
    + split; [by left|]. by left.
    + split.
      * intros [->|Hs]; [done|]. by right.
      * intros [->|[_ Hs]]; [done|]. by right.
Qed.

Lemma reachable_read_types_ok s : reachable code_mask s → read_types_ok s.
Proof.
  intros H. assert (read_types_ok init) as H0.
  { split; simpl; [constructor|]. intros n. rewrite lookup_empty, elem_of_nil.
    split; [done|]. by intros []. }
  revert H0. unfold reachable in H.
  induction H as [|s1 s2 s3 [c <-] _ IH]; [done|].
  intros Hc. by apply IH, run_read_types_ok.
Qed.

(** X10: in every state the builder can reach, [core_def] returns (it
    never raises) and does not change the builder; the contributing
    types of its [CoreDef] are the names of the instruction sets reduced
    so far, each listed once, however often a set of that name was
    reduced. *)
Theorem core_def_lists_each_instruction_set_once name template s :
  reachable code_mask s →
  ∃ c, core_def name template s = (Return c, s)
    ∧ NoDup (cd_contributing_types c)
    ∧ ∀ n, n ∈ cd_contributing_types c ↔ is_Some (__instruction_sets s !! n).
Proof.
  intros [Hnd Hin]%reachable_read_types_ok.
  eexists. split; [reflexivity|]. simpl. by split.
Qed.

(** *** Functions *)

(** X11: [function_def] has no duplicate check: in any state, a name
    that is already in [__functions] included, it allocates a new
    function and binds the name to it.  A return length that is absent,
    [0] or the empty name is not looked up at all: the function gets no
    return length, and the data type [NONE] unless one is given.  Any
    other return length is resolved, the data type defaulting to [U];
    the only failure is [KeyError] for a return length naming an
    undeclared constant, and it changes nothing. *)
Theorem function_def_rebinds_and_defaults
    return_len name fn_args data_type attributes operation s :
  (truthy return_len = false →
     ∃ s', function_def return_len name fn_args data_type attributes operation s
             = (Return (length (hFunction (heap s))), s')
       ∧ hFunction (heap s')
           = hFunction (heap s)
               ++ [mkFunction name None (default DT_NONE data_type) fn_args operation None]
       ∧ __functions s' = <[name := length (hFunction (heap s))]> (__functions s)
       ∧ __current_fn_idx s' = S (__current_fn_idx s))
  ∧ (∀ v rl,
       return_len = Some v → truthy return_len = true →
       get_constant_or_val v s = (Return rl, s) →
       ∃ s', function_def return_len name fn_args data_type attributes operation s
               = (Return (length (hFunction (heap s))), s')
         ∧ hFunction (heap s')
             = hFunction (heap s)
                 ++ [mkFunction name (Some rl) (default DT_U data_type) fn_args operation None]
         ∧ __functions s' = <[name := length (hFunction (heap s))]> (__functions s)
         ∧ __current_fn_idx s' = S (__current_fn_idx s))
  ∧ (∀ n,
       return_len = Some (Name n) → n ≠ "" → __constants s !! n = None →
       function_def return_len name fn_args data_type attributes operation s
         = (Raise (KeyError n), s)).
Proof.
  split; [|split].
  - intros Hf. unfold function_def, bind, ret, new_Function, modify. rewrite Hf. simpl.
    eexists. split; [reflexivity|]. simpl. by destruct data_type.
  - intros v rl -> Ht Hv. unfold function_def, bind, ret, new_Function, modify.
    rewrite Ht, Hv. simpl.
    eexists. split; [reflexivity|]. simpl. by destruct data_type.
  - intros n -> Hn Hc. unfold function_def, bind, ret.
    assert (truthy (Some (Name n)) = true) as ->.
    { simpl. apply negb_true_iff, String.eqb_neq, Hn. }
    unfold get_constant_or_val, bind, get, raise. by rewrite Hc.
Qed.

(** *** Instruction sets *)

Lemma lookup_foldl_alter {A} (f : A → A) ls (h : list A) l :
  (∀ x, f (f x) = f x) →
  foldl (λ h i, alter f i h) h ls !! l
    = if decide (l ∈ ls) then f <$> h !! l else h !! l.
Proof.
  intros Hf. revert h. induction ls as [|i ls IH]; intros h; simpl; [done|].
  rewrite IH, list_lookup_alter.
  destruct (decide (i = l)) as [->|Hne].
  - rewrite (decide_True (P := l ∈ l :: ls)) by left.
    destruct (h !! l); simpl; [|by case_decide].
    case_decide; simpl; by rewrite ?Hf.
  - destruct (decide (l ∈ ls)) as [Hin|Hnin].
    + by rewrite (decide_True (P := l ∈ i :: ls)) by (by right).
    + rewrite (decide_False (P := l ∈ i :: ls)); [done|].
      intros [?|?]%elem_of_cons; congruence.
Qed.

(** X12: [instruction_set] always ends with [Discard].  It leaves the
    namespaces, the instruction table, the function table and the memory
    tables untouched.  Every instruction and every function it was given
    is afterwards the same object with [ext_name] equal to the set's
    name and all other fields as before; no other instruction or function
    and no other object changes.  The set is filed under its name, with
    the given extension, and the name is a key of [__read_types]. *)
Theorem instruction_set_tags_and_discards
    name extension constants address_spaces registers functions instructions s :
  ∃ s' iset,
    instruction_set name extension constants address_spaces registers functions instructions s
      = (Discard, s')
    ∧ (∀ k, namespace k s' = namespace k s)
    ∧ __instructions s' = __instructions s
    ∧ __functions s' = __functions s
    ∧ __memories s' = __memories s
    ∧ __memory_aliases s' = __memory_aliases s
    ∧ (∀ l i, l ∈ instructions → hInstruction (heap s) !! l = Some i →
         hInstruction (heap s') !! l
           = Some (mkInstruction (i_name i) (i_attributes i) (i_encoding i) (i_disass i)
                     (i_operation i) (i_code i) (i_mask i) (Some name)))
    ∧ (∀ l, l ∉ instructions → hInstruction (heap s') !! l = hInstruction (heap s) !! l)
    ∧ (∀ l f, l ∈ functions → hFunction (heap s) !! l = Some f →
         hFunction (heap s') !! l
           = Some (mkFunction (f_name f) (f_return_len f) (f_data_type f) (f_args f)
                     (f_operation f) (Some name)))
    ∧ (∀ l, l ∉ functions → hFunction (heap s') !! l = hFunction (heap s) !! l)
    ∧ hConstant (heap s') = hConstant (heap s)
    ∧ hAddressSpace (heap s') = hAddressSpace (heap s)
    ∧ hRegister (heap s') = hRegister (heap s)
    ∧ hRegisterFile (heap s') = hRegisterFile (heap s)
    ∧ hRegisterAlias (heap s') = hRegisterAlias (heap s)
    ∧ hMemory (heap s') = hMemory (heap s)
    ∧ __instruction_sets s' !! name = Some iset
    ∧ is_name iset = name
    ∧ is_extension iset = extension
    ∧ name ∈ __read_types s'.
Proof.
  exec. simpl. eexists _, _. split; [reflexivity|]. simpl.
  split; [by intros []|]. do 4 (split; [done|]).
  split.
  { intros l i Hin Hl. rewrite lookup_foldl_alter by done.
    by rewrite decide_True, Hl by done. }
  split.
  { intros l Hnin. rewrite lookup_foldl_alter by done. by rewrite decide_False. }
  split.
  { intros l f Hin Hl. rewrite lookup_foldl_alter by done.
    by rewrite decide_True, Hl by done. }
  split.
  { intros l Hnin. rewrite lookup_foldl_alter by done. by rewrite decide_False. }
  do 6 (split; [done|]).
  split; [by rewrite lookup_insert_eq|]. do 2 (split; [done|]).
  case_decide; [done|]. apply elem_of_app. right. by left.
Qed.

Lemma index_by_name_from {R} (name_of : R → option string) (objs : list R)
    (acc : gmap string R) n :
  foldl (λ (acc : gmap string R) (o : R),
           match name_of o with
           | Some n => <[n := o]> acc
           | None => acc
           end) acc objs !! n
    = match last (filter (λ o, name_of o = Some n) objs) with
      | Some o => Some o
      | None => acc !! n
      end.
Proof.
  revert acc. induction objs as [|o objs IH]; intros acc; simpl; [done|].
  rewrite IH. rewrite filter_cons. case_decide as Hd.
  - rewrite last_cons. destruct (last (filter _ objs)); [done|].
    by rewrite Hd, lookup_insert_eq.
  - destruct (last (filter _ objs)); [done|].
    destruct (name_of o) as [n'|]; [|done].
    rewrite lookup_insert_ne; [done|]. congruence.
Qed.

(** X13: the dicts of an instruction set are keyed by name.  Under a
    name the instruction dict holds the last instruction of that name in
    the list the set was given, earlier ones of the same name being
    dropped, although the builder's own instruction table (keyed by
    [(code, mask)]) may keep them all; the dict is [None] for an empty
    list. *)
Theorem instruction_set_keeps_last_of_a_name
    name extension constants address_spaces registers functions instructions s :
  ∃ iset,
    __instruction_sets
      (instruction_set name extension constants address_spaces registers functions
         instructions s).2 !! name = Some iset
    ∧ (instructions = [] → is_instructions iset = None)
    ∧ (instructions ≠ [] →
       ∃ d, is_instructions iset = Some d
         ∧ ∀ n, d !! n
                = last (filter (λ l, i_name <$> hInstruction (heap s) !! l = Some n)
                               instructions)).
Proof.
  exec. simpl. eexists. split; [by rewrite lookup_insert_eq|]. simpl. split.
  - by intros ->.
  - intros Hne. destruct instructions as [|i rest]; [done|]. simpl.
    eexists. split; [reflexivity|]. intros n.
    change (index_by_name (λ l, i_name <$> hInstruction (heap s) !! l) (i :: rest) !! n
            = last (filter (λ l, i_name <$> hInstruction (heap s) !! l = Some n)
                           (i :: rest))).
    unfold index_by_name. rewrite index_by_name_from.
    destruct (last _); [done|]. by rewrite lookup_empty.
Qed.

(** *** Sizes given by name *)

(** X14: a size given by the name of a constant is stored as a
    reference to the constant object, not as a number.  In a state the
    builder can reach, after [register] with size [cname] and a later
    [constant_def] of [cname], the register's size still refers to that
    very object, which now has the redefined value and attributes. *)
Theorem size_by_name_follows_redefinition rname cname attrs v attrs' s r s1 :
  reachable code_mask s →
  register rname (Name cname) attrs s = (Return r, s1) →
  ∃ c s2 reg k,
    __constants s !! cname = Some c
    ∧ constant_def cname v attrs' s1 = (Return c, s2)
    ∧ hRegister (heap s2) !! r = Some reg
    ∧ r_size reg = SConst c
    ∧ hConstant (heap s2) !! c = Some k
    ∧ c_value k = v
    ∧ c_attributes k = attrs'.
Proof.
  intros Hc%reachable_consistent Hrun.
  exec. simpl in Hrun. repeat (case_match; simpl in *; simplify_eq).
  match goal with H : __constants _ !! cname = Some ?c |- _ =>
    destruct (con_constants _ Hc _ _ H) as (k0 & Hk0 & _); exists c end.
  eexists _, _, _. split; [done|]. split; [reflexivity|]. simpl.
  split; [by apply list_lookup_middle|]. split; [done|].
  rewrite list_lookup_alter_eq, Hk0. simpl. by split.
Qed.

(** *** Declarations with a memory view *)

Lemma resolves_or_not s v :
  resolves s v ∨ ∃ n, v = Name n ∧ __constants s !! n = None.
Proof.
  destruct v as [z|n]; simpl; [by left|].
  destruct (__constants s !! n) eqn:Hn; [left; eauto|right; eauto].
Qed.

Lemma get_constant_or_val_missing n s :
  __constants s !! n = None → get_constant_or_val (Name n) s = (Raise (KeyError n), s).
Proof. intros Hn. unfold get_constant_or_val, bind, get, raise. by rewrite Hn. Qed.

(** X15: [address_space], [register] and [register_file] on a name
    that is new to their own table fail in one way only.  When every
    size and length argument is an integer or the name of a declared
    constant the handler returns; otherwise it raises [KeyError] for a
    name that is not in the constant table, and the builder is
    unchanged: no entity and no memory view has been entered. *)
Theorem memory_declaration_fails_only_on_unresolved_name d s :
  namespace (mem_kind d) s !! mem_name d = None →
  (mem_resolvable s d ∧ ∃ v s1, run code_mask (mem_call d) s = (Return v, s1))
  ∨ (¬ mem_resolvable s d
     ∧ ∃ n, run code_mask (mem_call d) s = (Raise (KeyError n), s)
         ∧ __constants s !! n = None).
Proof.
  intros Hfresh.
  assert (Hnot : ∀ n, __constants s !! n = None → ¬ resolves s (Name n)).
  { intros n Hn [c Hc]. congruence. }
  destruct d as [name size lb lp attribs|name size attributes|rng name size attributes];
    simpl in Hfresh.
  - destruct (resolves_or_not s size) as [Hsz|(n & -> & Hn)].
    2:{ right. split; [intros (H & _); by eapply Hnot|]. exists n. split; [|done].
        simpl. unfold returning, address_space, bind, get.
        by rewrite Hfresh, (get_constant_or_val_missing n s Hn). }
    destruct (resolves_returns s size Hsz) as [sz Hszr].
    destruct (resolves_or_not s lb) as [Hlb|(n & -> & Hn)].
    2:{ right. split; [intros (_ & H & _); by eapply Hnot|]. exists n. split; [|done].
        simpl. unfold returning, address_space, bind, get.
        by rewrite Hfresh, Hszr, (get_constant_or_val_missing n s Hn). }
    destruct (resolves_returns s lb Hlb) as [b Hbr].
    destruct lp as [pw|].
    + destruct (resolves_or_not s pw) as [Hpw|(n & -> & Hn)].
      2:{ right. split; [intros (_ & _ & H); by eapply Hnot|]. exists n. split; [|done].
          simpl. unfold returning, address_space, bind, get.
          by rewrite Hfresh, Hszr, Hbr, (get_constant_or_val_missing n s Hn). }
      left. split; [done|].
      by apply (mem_decl_succeeds code_mask (decl_address_space name size lb (Some pw) attribs)).
    + left. split; [done|].
      by apply (mem_decl_succeeds code_mask (decl_address_space name size lb None attribs)).
  - destruct (resolves_or_not s size) as [Hsz|(n & -> & Hn)].
    + left. split; [done|].
      by apply (mem_decl_succeeds code_mask (decl_register name size attributes)).
    + right. split; [by apply Hnot|]. exists n. split; [|done].
      simpl. unfold returning, register, bind, get.
      by rewrite Hfresh, (get_constant_or_val_missing n s Hn).
  - destruct (resolves_or_not s size) as [Hsz|(n & -> & Hn)].
    + left. split; [done|].
      by apply (mem_decl_succeeds code_mask (decl_register_file rng name size attributes)).
    + right. split; [by apply Hnot|]. exists n. split; [|done].
      simpl. unfold returning, register_file, bind, get.
      by rewrite Hfresh, (get_constant_or_val_missing n s Hn).
Qed.

(** X16: when [address_space], [register], [register_file] or
    [register_alias] returns, the memory view it has paired with the new
    entity is found under the entity's name (in [__memories]; for an
    alias in [__memory_aliases]), carries that name, and has the size
    and the attributes of the entity. *)
Theorem paired_view_agrees_with_entity c k n s v s1 :
  declares c = Some (k, n) →
  k ≠ KConstant →
  run code_mask c s = (Return v, s1) →
  ∃ m view sz attrs,
    view_table k s1 !! n = Some m
    ∧ hMemory (heap s1) !! m = Some view
    ∧ m_name view = n
    ∧ entity_size_attributes (heap s1) v = Some (sz, attrs)
    ∧ m_size view = sz
    ∧ m_attributes view = attrs.
Proof.
  intros Hc Hk Hrun. destruct c; simpl in Hc; simplify_eq.
  - exec. simpl in Hrun. repeat (case_match; simpl in *; simplify_eq).
    all: eexists _, _, _, _; simpl; rewrite lookup_insert_eq, !list_lookup_middle by done;
         simpl; done.
  - exec. simpl in Hrun. repeat (case_match; simpl in *; simplify_eq).
    all: eexists _, _, _, _; simpl; rewrite lookup_insert_eq, !list_lookup_middle by done;
         simpl; done.
  - exec. simpl in Hrun. repeat (case_match; simpl in *; simplify_eq).
    all: eexists _, _, _, _; simpl; rewrite lookup_insert_eq, !list_lookup_middle by done;
         simpl; done.
  - unfold run, returning, bind, ret in Hrun.
    destruct (register_alias n size actual index attributes s) as [[r| |e] s2] eqn:Hra;
      simplify_eq.
    destruct (register_alias_returns _ _ _ _ _ _ _ _ Hra)
      as (reg & sz & p & _ & _ & _ & -> & Hal & _ & Hmem & _ & Hma).
    destruct (lookup_new_view (hMemory (heap s))
                (mkMemory n (normalize_index index) sz attributes []) p)
      as (view & Hview & Hname & _ & Hsize & Hattrs).
    exists (length (hMemory (heap s))), view, sz, attributes. simpl.
    rewrite Hma, Hmem, Hal, lookup_insert_eq, list_lookup_middle by done. simpl.
    done.
Qed.

(** *** The parent of an alias's view *)


(** *** Length base and power of an address space *)

(** X17: when [address_space] returns, the [AddressSpace] and the view
    entered under its name in [__memories] carry the same size and
    attributes and the same length base and power, the view as
    [RangeSpec(base, 0, power)].  A base or power given as an integer is
    stored as that integer, one given by name as a reference to the
    constant object of that name, and an absent power is stored as 1. *)
Theorem address_space_view_shares_base_and_power
    name size length_base length_power attribs s a s' :
  address_space name size length_base length_power attribs s = (Return a, s') →
  ∃ sz base power m,
    __address_spaces s' !! name = Some a
    ∧ hAddressSpace (heap s') !! a = Some (mkAddressSpace name base power sz attribs)
    ∧ __memories s' !! name = Some m
    ∧ hMemory (heap s') !! m
        = Some (mkMemory name (mkRangeSpec [base; SInt 0; power]) sz attribs [])
    ∧ (∀ z, length_base = Lit z → base = SInt z)
    ∧ (∀ n, length_base = Name n → ∃ c, __constants s !! n = Some c ∧ base = SConst c)
    ∧ (length_power = None → power = SInt 1)
    ∧ (∀ z, length_power = Some (Lit z) → power = SInt z)
    ∧ (∀ n, length_power = Some (Name n) →
         ∃ c, __constants s !! n = Some c ∧ power = SConst c).
Proof.
  intros Hrun. exec. simpl in Hrun. repeat (case_match; simpl in *; simplify_eq).
  all: eexists _, _, _, _; simpl;
       rewrite !lookup_insert_eq, !list_lookup_middle by done;
       repeat split; try done; intros; simplify_eq; eauto.
Qed.

End Invariants.

(** ** The small pass *)

(** X1 at the small pass: sizing a register by the undeclared [YLEN]
    fails and leaves the builder as it was. *)
Lemma failed_reduction_changes_nothing_small_pass :
  reachable spec_code_mask after_small_pass
  ∧ (run spec_code_mask (call_register "Y" (Name "YLEN") ∅) after_small_pass).1
      = Raise (KeyError "YLEN")
  ∧ (run spec_code_mask (call_register "Y" (Name "YLEN") ∅) after_small_pass).2
      = after_small_pass.
Proof.
  assert (Hreach : reachable spec_code_mask after_small_pass) by apply run_all_reachable.
  split; [exact Hreach|]. split; [vm_compute; reflexivity|].
  apply (failed_reduction_changes_nothing spec_code_mask
           (call_register "Y" (Name "YLEN") ∅) after_small_pass (KeyError "YLEN") _ Hreach).
  vm_compute. reflexivity.
Defined.

(** X2 at the small pass: from its declarations to its end. *)
Lemma objects_are_kept_small_pass :
  steps spec_code_mask after_declarations after_rest
  ∧ heap_evolves (heap after_declarations) (heap after_rest).
Proof.
  assert (Hsteps : steps spec_code_mask after_declarations after_rest)
    by apply run_all_steps.
  split; [exact Hsteps|].
  exact (objects_are_kept spec_code_mask after_declarations after_rest Hsteps).
Defined.

(** X3 at the small pass: [X0] is still the register object 0. *)
Lemma declared_name_is_permanent_small_pass :
  steps spec_code_mask after_declarations after_rest
  ∧ namespace KRegister after_declarations !! "X0" = Some 0
  ∧ namespace KRegister after_rest !! "X0" = Some 0.
Proof.
  assert (Hsteps : steps spec_code_mask after_declarations after_rest)
    by apply run_all_steps.
  split; [exact Hsteps|]. split; [reflexivity|].
  exact (declared_name_is_permanent spec_code_mask after_declarations after_rest
           KRegister "X0" 0 Hsteps eq_refl).
Defined.

(** X4 at the small pass. *)
Lemma tables_refer_to_their_objects_small_pass :
  reachable spec_code_mask after_small_pass ∧ consistent after_small_pass.
Proof.
  assert (Hreach : reachable spec_code_mask after_small_pass) by apply run_all_reachable.
  split; [exact Hreach|].
  exact (tables_refer_to_their_objects spec_code_mask after_small_pass Hreach).
Defined.

(** X5 at the small pass. *)
Lemma memory_tables_mirror_declarations_small_pass :
  reachable spec_code_mask after_small_pass ∧ views_paired after_small_pass.
Proof.
  assert (Hreach : reachable spec_code_mask after_small_pass) by apply run_all_reachable.
  split; [exact Hreach|].
  exact (memory_tables_mirror_declarations spec_code_mask after_small_pass Hreach).
Defined.

(** X6 at the small pass. *)
Lemma alias_refers_to_earlier_object_small_pass :
  reachable spec_code_mask after_small_pass ∧ alias_refs_earlier after_small_pass.
Proof.
  assert (Hreach : reachable spec_code_mask after_small_pass) by apply run_all_reachable.
  split; [exact Hreach|].
  exact (alias_refers_to_earlier_object spec_code_mask after_small_pass Hreach).
Defined.

(** X7 at the small pass. *)
Lemma memory_views_form_a_forest_small_pass :
  reachable spec_code_mask after_small_pass ∧ forest after_small_pass.
Proof.
  assert (Hreach : reachable spec_code_mask after_small_pass) by apply run_all_reachable.
  split; [exact Hreach|].
  exact (memory_views_form_a_forest spec_code_mask after_small_pass Hreach).
Defined.

(** X8 at the small pass: one instruction and one function. *)
Lemma indices_count_objects_small_pass :
  reachable spec_code_mask after_small_pass
  ∧ counters after_small_pass
  ∧ __current_instr_idx after_small_pass = 1.
Proof.
  assert (Hreach : reachable spec_code_mask after_small_pass) by apply run_all_reachable.
  split; [exact Hreach|].
  split; [exact (indices_count_objects spec_code_mask after_small_pass Hreach)|reflexivity].
Defined.

(** X9 at the small pass: the field [imm] of a second instruction does
    not join the two [imm] fields of the first. *)
Lemma bit_field_after_instruction_starts_a_group_small_pass :
  reachable spec_code_mask after_small_pass
  ∧ length <$> (__fields after_small_pass !! 0 ≫= λ g, g !! "imm") = Some 2
  ∧ ∃ i s1 b s2,
      instruction spec_code_mask "TWO" ∅ enc_two "two" "op2" after_small_pass
        = (Return i, s1)
      ∧ __current_instr_idx s1 = S (__current_instr_idx after_small_pass)
      ∧ bit_field "imm" (mkRangeSpec [SInt 31; SInt 7]) None s1 = (Return b, s2)
      ∧ b = mkBitField "imm" (mkRangeSpec [SInt 31; SInt 7]) DT_U
      ∧ __fields s2 !! __current_instr_idx s1 = Some {["imm" := [b]]}
      ∧ ∀ idx, idx ≠ __current_instr_idx s1 →
               __fields s2 !! idx = __fields after_small_pass !! idx.
Proof.
  assert (Hreach : reachable spec_code_mask after_small_pass) by apply run_all_reachable.
  split; [exact Hreach|]. split; [reflexivity|].
  exact (bit_field_after_instruction_starts_a_group spec_code_mask
           "TWO" ∅ enc_two "two" "op2" "imm" (mkRangeSpec [SInt 31; SInt 7]) None
           after_small_pass Hreach).
Defined.

(** X10 at the small pass: the one instruction set [RV]. *)
Lemma core_def_lists_each_instruction_set_once_small_pass :
  reachable spec_code_mask after_small_pass
  ∧ __read_types after_small_pass = ["RV"]
  ∧ ∃ c, core_def "core" None after_small_pass = (Return c, after_small_pass)
      ∧ NoDup (cd_contributing_types c)
      ∧ ∀ n, n ∈ cd_contributing_types c
             ↔ is_Some (__instruction_sets after_small_pass !! n).
Proof.
  assert (Hreach : reachable spec_code_mask after_small_pass) by apply run_all_reachable.
  split; [exact Hreach|]. split; [reflexivity|].
  exact (core_def_lists_each_instruction_set_once spec_code_mask
           "core" None after_small_pass Hreach).
Defined.

(** X14 at [WLEN]: the register [R] sized by [WLEN] sees 64 after
    [WLEN] is redefined. *)
Lemma size_by_name_follows_redefinition_WLEN :
  reachable spec_code_mask with_WLEN
  ∧ register "R" (Name "WLEN") ∅ with_WLEN = (Return 0, with_sized_register)
  ∧ ∃ c s2 reg k,
      __constants with_WLEN !! "WLEN" = Some c
      ∧ constant_def "WLEN" (Some 64%Z) ∅ with_sized_register = (Return c, s2)
      ∧ hRegister (heap s2) !! 0 = Some reg
      ∧ r_size reg = SConst c
      ∧ hConstant (heap s2) !! c = Some k
      ∧ c_value k = Some 64%Z
      ∧ c_attributes k = ∅.
Proof.
  assert (Hreach : reachable spec_code_mask with_WLEN) by apply run_all_reachable.
  assert (Hrun : register "R" (Name "WLEN") ∅ with_WLEN = (Return 0, with_sized_register))
    by (vm_compute; reflexivity).
  split; [exact Hreach|]. split; [exact Hrun|].
  exact (size_by_name_follows_redefinition spec_code_mask
           "R" "WLEN" ∅ (Some 64%Z) ∅ with_WLEN 0 with_sized_register Hreach Hrun).
Defined.

(** X15 in a fresh builder: a register sized by the undeclared [XLEN]
    is refused with [KeyError]; one sized by a number is accepted. *)
Lemma memory_declaration_fails_only_on_unresolved_name_fresh :
  namespace KRegister init !! "X0" = None
  ∧ ((mem_resolvable init (decl_register "X0" (Name "XLEN") ∅)
      ∧ ∃ v s1, run spec_code_mask (call_register "X0" (Name "XLEN") ∅) init = (Return v, s1))
     ∨ (¬ mem_resolvable init (decl_register "X0" (Name "XLEN") ∅)
        ∧ ∃ n, run spec_code_mask (call_register "X0" (Name "XLEN") ∅) init
                 = (Raise (KeyError n), init)
            ∧ __constants init !! n = None))
  ∧ ((mem_resolvable init (decl_register "X0" (Lit 32) ∅)
      ∧ ∃ v s1, run spec_code_mask (call_register "X0" (Lit 32) ∅) init = (Return v, s1))
     ∨ (¬ mem_resolvable init (decl_register "X0" (Lit 32) ∅)
        ∧ ∃ n, run spec_code_mask (call_register "X0" (Lit 32) ∅) init
                 = (Raise (KeyError n), init)
            ∧ __constants init !! n = None)).
Proof.
  split; [reflexivity|]. split.
  - exact (memory_declaration_fails_only_on_unresolved_name spec_code_mask
             (decl_register "X0" (Name "XLEN") ∅) init eq_refl).
  - exact (memory_declaration_fails_only_on_unresolved_name spec_code_mask
             (decl_register "X0" (Lit 32) ∅) init eq_refl).
Defined.

(** X16 at [X0L]: the alias and its view under [X0L] have size 16. *)
Lemma paired_view_agrees_with_entity_X0L :
  run spec_code_mask (call_register_alias "X0L" (Lit 16) "X0" X0L_range ∅) with_X0
    = (Return (TRegisterAlias 0), with_X0L)
  ∧ ∃ m view sz attrs,
      view_table KRegisterAlias with_X0L !! "X0L" = Some m
      ∧ hMemory (heap with_X0L) !! m = Some view
      ∧ m_name view = "X0L"
      ∧ entity_size_attributes (heap with_X0L) (TRegisterAlias 0) = Some (sz, attrs)
      ∧ m_size view = sz
      ∧ m_attributes view = attrs.
Proof.
  assert (Hrun : run spec_code_mask (call_register_alias "X0L" (Lit 16) "X0" X0L_range ∅)
                   with_X0 = (Return (TRegisterAlias 0), with_X0L))
    by (vm_compute; reflexivity).
  assert (Hk : KRegisterAlias ≠ KConstant) by discriminate.
  split; [exact Hrun|].
  exact (paired_view_agrees_with_entity spec_code_mask
           (call_register_alias "X0L" (Lit 16) "X0" X0L_range ∅) KRegisterAlias "X0L"
           with_X0 (TRegisterAlias 0) with_X0L eq_refl Hk Hrun).
Defined.

(** ** Aliases and the names they are found under *)



(** X12 at the small pass: the instruction set [RV] tags the
    instruction [ONE] and the function [f]. *)
Lemma instruction_set_tags_and_discards_small_pass :
  hInstruction (heap before_instruction_set) !! 0
    = Some (Instruction_init spec_code_mask "ONE" ∅ enc_one "one" "op1")
  ∧ hFunction (heap before_instruction_set) !! 0
      = Some (mkFunction "f" None DT_NONE [] "body" None)
  ∧ ∃ s',
      instruction_set "RV" None [0] [] [RReg 0; RFile 0; RAlias 0] [0] [0]
        before_instruction_set = (Discard, s')
      ∧ i_ext_name <$> hInstruction (heap s') !! 0 = Some (Some "RV")
      ∧ i_name <$> hInstruction (heap s') !! 0 = Some "ONE"
      ∧ f_ext_name <$> hFunction (heap s') !! 0 = Some (Some "RV")
      ∧ "RV" ∈ __read_types s'.
Proof.
  assert (Hi : hInstruction (heap before_instruction_set) !! 0
               = Some (Instruction_init spec_code_mask "ONE" ∅ enc_one "one" "op1"))
    by (vm_compute; reflexivity).
  assert (Hf : hFunction (heap before_instruction_set) !! 0
               = Some (mkFunction "f" None DT_NONE [] "body" None))
    by (vm_compute; reflexivity).
  split; [exact Hi|]. split; [exact Hf|].
  destruct (instruction_set_tags_and_discards
              "RV" None [0] [] [RReg 0; RFile 0; RAlias 0] [0] [0] before_instruction_set)
    as (s' & iset & Hrun & _ & _ & _ & _ & _ & Hti & _ & Htf & _ & _ & _ & _ & _ & _ & _
        & _ & _ & _ & Hrt).
  exists s'. split; [exact Hrun|].
  assert (H0 : 0 ∈ [0]) by (by left).
  rewrite (Hti 0 _ H0 Hi), (Htf 0 _ H0 Hf). simpl. by repeat split.
Defined.

(** X17 in the scenario of the specification: [WLEN = 32], then [MEM]
    with length base [WLEN] and power 1. *)
Lemma address_space_view_shares_base_and_power_MEM :
  address_space "MEM" (Lit 8) (Name "WLEN") (Some (Lit 1)) ∅ with_WLEN = (Return 0, with_MEM)
  ∧ hConstant (heap with_MEM) !! 0 = Some (mkConstant "WLEN" (Some 32%Z) ∅)
  ∧ hAddressSpace (heap with_MEM) !! 0
      = Some (mkAddressSpace "MEM" (SConst 0) (SInt 1) (SInt 8) ∅)
  ∧ hMemory (heap with_MEM) !! 0
      = Some (mkMemory "MEM" (mkRangeSpec [SConst 0; SInt 0; SInt 1]) (SInt 8) ∅ [])
  ∧ ∃ sz base power m,
      __address_spaces with_MEM !! "MEM" = Some 0
      ∧ hAddressSpace (heap with_MEM) !! 0 = Some (mkAddressSpace "MEM" base power sz ∅)
      ∧ __memories with_MEM !! "MEM" = Some m
      ∧ hMemory (heap with_MEM) !! m
          = Some (mkMemory "MEM" (mkRangeSpec [base; SInt 0; power]) sz ∅ [])
      ∧ (∀ z, Name "WLEN" = Lit z → base = SInt z)
      ∧ (∀ n, Name "WLEN" = Name n →
           ∃ c, __constants with_WLEN !! n = Some c ∧ base = SConst c)
      ∧ (Some (Lit 1) = None → power = SInt 1)
      ∧ (∀ z, Some (Lit 1) = Some (Lit z) → power = SInt z)
      ∧ (∀ n, Some (Lit 1) = Some (Name n) →
           ∃ c, __constants with_WLEN !! n = Some c ∧ power = SConst c).
Proof.
  assert (Hrun : address_space "MEM" (Lit 8) (Name "WLEN") (Some (Lit 1)) ∅ with_WLEN
                 = (Return 0, with_MEM)) by (vm_compute; reflexivity).
  split; [exact Hrun|]. do 3 (split; [vm_compute; reflexivity|]).
  exact (address_space_view_shares_base_and_power
           "MEM" (Lit 8) (Name "WLEN") (Some (Lit 1)) ∅ with_WLEN 0 with_MEM Hrun).
Defined.
